(** * The saga engine of [saga.py]

    A shallow embedding of [SagaError], [Action] and [Saga] and of the parts
    of the Python runtime they rely on, followed by the properties of the
    engine: order of compensation, the failure value, threading of results,
    the fields of a step, and the rendering of a failure.

    Conventions of the model.
    - A Python [str] is a list of code points.
    - An exception object carries the chaining attributes the [traceback]
      module reads, and whether it is an instance of [Exception]: the
      [except Exception] clauses of the engine let any other
      [BaseException] through.
    - The callables given to a step are deterministic functions of their
      arguments and of an abstract external world, which they may change.
      They do not touch the [Action] objects of the saga.
    - [Action] objects live in a store indexed by object identity, so that
      one object held at two positions of [steps] is one object.
    - A run is sequential; [await] resolves an awaitable on the spot.
    - Every call the engine makes to [act] or to [compensate] is recorded,
      with its outcome, in a log carried by the machine state; the
      properties tie the outcomes recorded to the calls of the callables
      themselves. *)

From Stdlib Require Import String Ascii DecimalString.
From Stdlib Require Import List NArith ZArith Arith Bool Lia.
Import ListNotations.

#[local] Set Warnings "-register-all".

(** ** Python strings *)

Module Py.

Definition str := list N.

(** A literal of ASCII characters. *)
Definition lit (s : string) : str := map N_of_ascii (list_ascii_of_string s).

Definition nl : str := [10%N].

(** [c in s] for a one-character [c]. *)
Definition contains_char (c : N) (s : str) : bool := existsb (N.eqb c) s.

(** [s.startswith(p)], returning what follows the prefix. *)
Fixpoint strip_prefix (p s : str) : option str :=
  match p, s with
  | [], _ => Some s
  | _ :: _, [] => None
  | x :: p', y :: s' => if N.eqb x y then strip_prefix p' s' else None
  end.

Fixpoint find_first (sep : str) (before_rev : str) (s : str) : option (str * str) :=
  match strip_prefix sep s with
  | Some after => Some (rev before_rev, after)
  | None =>
      match s with
      | [] => None
      | c :: s' => find_first sep (c :: before_rev) s'
      end
  end.

(** [s.partition(sep)] for a non-empty [sep]: split at the first occurrence,
    or [(s, '', '')] when there is none. *)
Definition partition (s sep : str) : str * str * str :=
  match find_first sep [] s with
  | Some (before, after) => (before, sep, after)
  | None => (s, [], [])
  end.

(** [sep.join(parts)]. *)
Fixpoint join (sep : str) (parts : list str) : str :=
  match parts with
  | [] => []
  | [p] => p
  | p :: rest => p ++ sep ++ join sep rest
  end.

(** The line boundaries of [str.splitlines]. *)
Definition is_line_boundary (c : N) : bool :=
  existsb (N.eqb c) [10; 11; 12; 13; 28; 29; 30; 133; 8232; 8233]%N.

Fixpoint splitlines_from (cur_rev : str) (s : str) : list str :=
  match s with
  | [] => match cur_rev with [] => [] | _ => [rev cur_rev] end
  | c :: rest =>
      if is_line_boundary c then
        match c, rest with
        | 13%N, 10%N :: rest' => rev cur_rev :: splitlines_from [] rest'
        | _, _ => rev cur_rev :: splitlines_from [] rest
        end
      else splitlines_from (c :: cur_rev) rest
  end.

Definition splitlines (s : str) : list str := splitlines_from [] s.

(** [str.isspace] on one character. *)
Definition is_space (c : N) : bool :=
  ((9 <=? c) && (c <=? 13) || (28 <=? c) && (c <=? 32)
   || (8192 <=? c) && (c <=? 8202)
   || existsb (N.eqb c) [133; 160; 5760; 8232; 8233; 8239; 8287; 12288])%N.

Fixpoint lstrip (s : str) : str :=
  match s with
  | c :: s' => if is_space c then lstrip s' else s
  | [] => []
  end.

(** [s.strip()]. *)
Definition strip (s : str) : str := rev (lstrip (rev (lstrip s))).

(** [' ' * n]. *)
Definition spaces (n : nat) : str := repeat 32%N n.

(** [str(n)] for a non-negative [int]. *)
Definition str_of_nat (n : nat) : str := lit (NilEmpty.string_of_uint (Nat.to_uint n)).

(** ** Values *)

(** Plain data passed between steps. *)
Inductive value : Type :=
| VNone
| VBool (b : bool)
| VInt (z : Z)
| VStr (s : str)
| VList (items : list value)
| VTuple (items : list value)
| VDict (entries : list (value * value)).

(** [type(v).__name__]. *)
Definition type_name_of (v : value) : str :=
  match v with
  | VNone => lit "NoneType"
  | VBool _ => lit "bool"
  | VInt _ => lit "int"
  | VStr _ => lit "str"
  | VList _ => lit "list"
  | VTuple _ => lit "tuple"
  | VDict _ => lit "dict"
  end.

(** A value of type [Union[tuple, list]]. *)
Inductive sequence : Type :=
| AsList (items : list value)
| AsTuple (items : list value).

(** [*seq]: the elements, as positional arguments. *)
Definition elements (s : sequence) : list value :=
  match s with AsList xs | AsTuple xs => xs end.

(** ** Exceptions and the [traceback] module *)

(** An instance of [BaseException] as the handler sees it:
    [type(e).__name__], [str(e)], the text the [traceback] module prints for
    this exception alone, the attributes [__cause__], [__context__] and
    [__suppress_context__], and [isinstance(e, Exception)], which is false
    for [KeyboardInterrupt], [SystemExit], [asyncio.CancelledError] and the
    like. *)
Inductive exn : Type := Exn {
  type_name : str;
  message : str;
  trace_block : str;
  cause : option exn;
  context : option exn;
  suppress_context : bool;
  is_exception : bool
}.

Definition cause_message : str :=
  nl ++ lit "The above exception was the direct cause of the following exception:" ++ nl ++ nl.

Definition context_message : str :=
  nl ++ lit "During handling of the above exception, another exception occurred:" ++ nl ++ nl.

(** [traceback.format_exception(e)] with [chain=True], joined. *)
Fixpoint format_exception (e : exn) : str :=
  match cause e with
  | Some c => format_exception c ++ cause_message ++ trace_block e
  | None =>
      match context e with
      | Some c =>
          if suppress_context e then trace_block e
          else format_exception c ++ context_message ++ trace_block e
      | None => trace_block e
      end
  end.

(** [traceback.format_exc()], given the exception being handled. *)
Definition format_exc (handling : option exn) : str :=
  match handling with
  | Some e => format_exception e
  | None => lit "NoneType: None" ++ nl
  end.

Inductive outcome (E A : Type) : Type :=
| Returned (a : A)
| Raised (e : E).
Arguments Returned {E A} a.
Arguments Raised {E A} e.

(** A code object: the names of the declared parameters, then those of the
    other local variables; [co_varnames] lists both. *)
Record code : Type := {
  co_params : list str;
  co_locals : list str
}.

Definition co_varnames (c : code) : list str := co_params c ++ co_locals c.

(** Truth value of a tuple or list. *)
Definition truthy {A : Type} (xs : list A) : bool :=
  match xs with [] => false | _ :: _ => true end.

(** The message of the [TypeError] raised when a function with the
    positional parameters [params] is called with [given] arguments. *)
Definition plural (n : nat) (one many : str) : str :=
  if Nat.eqb n 1 then one else many.

Definition quoted (name : str) : str := lit "'" ++ name ++ lit "'".

Fixpoint quoted_names (names : list str) : str :=
  match names with
  | [] => []
  | [a] => quoted a
  | [a; b] => quoted a ++ lit " and " ++ quoted b
  | a :: (_ :: _ :: _) as rest =>
      match rest with
      | [b; c] => quoted a ++ lit ", " ++ quoted b ++ lit ", and " ++ quoted c
      | _ => quoted a ++ lit ", " ++ quoted_names rest
      end
  end.

Definition arity_message (name : str) (params : list str) (given : nat) : str :=
  if Nat.ltb given (length params) then
    let missing := skipn given params in
    name ++ lit "() missing " ++ str_of_nat (length missing)
    ++ lit " required positional "
    ++ plural (length missing) (lit "argument") (lit "arguments")
    ++ lit ": " ++ quoted_names missing
  else
    name ++ lit "() takes " ++ str_of_nat (length params)
    ++ lit " positional " ++ plural (length params) (lit "argument") (lit "arguments")
    ++ lit " but " ++ str_of_nat given ++ lit " " ++ plural given (lit "was") (lit "were")
    ++ lit " given".

End Py.

Import Py.

(** *** The string functions on small inputs *)

Example partition_at_first_occurrence :
  partition (lit "a, b, c") (lit ", ") = (lit "a", lit ", ", lit "b, c").
Proof. reflexivity. Qed.

Example partition_without_separator :
  partition (lit "a b c") (lit ", ") = (lit "a b c", [], []).
Proof. reflexivity. Qed.

Example splitlines_keeps_inner_empty_lines :
  splitlines (lit "ab" ++ [13; 10]%N ++ lit "c" ++ nl ++ nl ++ lit "d" ++ nl)
  = [lit "ab"; lit "c"; []; lit "d"].
Proof. reflexivity. Qed.

Example strip_both_ends : strip (nl ++ lit "  a b " ++ nl) = lit "a b".
Proof. reflexivity. Qed.

Example join_three : join (lit ", ") [lit "a"; lit "b"; lit "c"] = lit "a, b, c".
Proof. reflexivity. Qed.

Example str_of_nat_120 : str_of_nat 120 = lit "120".
Proof. reflexivity. Qed.

Example arity_message_too_many :
  arity_message (lit "f") [] 1 = lit "f() takes 0 positional arguments but 1 was given".
Proof. reflexivity. Qed.

Example arity_message_missing :
  arity_message (lit "f") [lit "a"; lit "b"; lit "c"] 0
  = lit "f() missing 3 required positional arguments: 'a', 'b', and 'c'".
Proof. reflexivity. Qed.

Example format_exception_with_context :
  let first := Exn (lit "ValueError") (lit "x") (lit "first") None None false true in
  let second := Exn (lit "KeyError") (lit "y") (lit "second") None (Some first) false true in
  let quiet := Exn (lit "KeyError") (lit "y") (lit "second") None (Some first) true true in
  format_exception second = lit "first" ++ context_message ++ lit "second" /\
  format_exception quiet = lit "second".
Proof. split; reflexivity. Qed.

(** ** Steps *)

Section Engine.

(** The state of whatever the callables act on. *)
Variable World : Type.

(** The frame lines the [traceback] module prints for an exception the
    interpreter raises at a given line of [saga.py]. *)
Variable stack_text : nat -> str.

(** What a call returns: a plain value, or an awaitable that yields its
    outcome when awaited. The first argument of [resume] is the exception
    being handled where the await takes place. *)
Inductive returned : Type :=
| Plain (v : value)
| Awaitable (resume : option exn -> World -> outcome exn value * World).

(** A callable object. [__code__] is absent on callables that are not
    Python functions. [call] is the call itself, binding of the arguments
    included. *)
Record callable : Type := {
  class_name : str;
  __qualname__ : str;
  __code__ : option code;
  call : option exn -> list value -> World -> outcome exn returned * World
}.

(** An exception raised by the interpreter itself at [line] of [saga.py]
    while [handling] is being handled. *)
Definition interp_error (line : nat) (name msg : str) (handling : option exn) : exn :=
  {| type_name := name;
     message := msg;
     trace_block :=
       lit "Traceback (most recent call last):" ++ nl ++ stack_text line
       ++ name ++ lit ": " ++ msg ++ nl;
     cause := None;
     context := handling;
     suppress_context := false;
     is_exception := true |}.

Definition no_attribute (line : nat) (owner attr : str) : option exn -> exn :=
  interp_error line (lit "AttributeError")
    (lit "'" ++ owner ++ lit "' object has no attribute '" ++ attr ++ lit "'").

(** A function defined with [def] or [async def] with fixed positional
    parameters, called from [line] of [saga.py]: with another number of
    arguments the call raises [TypeError] before the body runs. *)
Definition def (line : nat) (name : str) (c : code)
    (body : option exn -> list value -> World -> outcome exn returned * World) : callable :=
  {| class_name := lit "function";
     __qualname__ := name;
     __code__ := Some c;
     call := fun handling args w =>
       if Nat.eqb (length args) (length (co_params c)) then body handling args w
       else (Raised (interp_error line (lit "TypeError")
                       (arity_message name (co_params c) (length args)) handling), w) |}.

Record Action : Type := {
  action : callable;
  compensation : callable;
  compensation_args : option sequence;
  result : value
}.

(** [if isawaitable(result): result = await result]. *)
Definition await_if_awaitable (handling : option exn)
    (r : outcome exn returned * World) : outcome exn value * World :=
  match r with
  | (Returned (Plain v), w) => (Returned v, w)
  | (Returned (Awaitable resume), w) => resume handling w
  | (Raised e, w) => (Raised e, w)
  end.

(** [Action.act]. *)
Definition act (self : Action) (handling : option exn) (args : list value) (w : World)
    : outcome exn value * World :=
  match __code__ (action self) with
  | None =>
      (Raised (no_attribute 57 (class_name (action self)) (lit "__code__") handling), w)
  | Some c =>
      await_if_awaitable handling
        (call (action self) handling (if truthy (co_varnames c) then args else []) w)
  end.

(** [await x] on what a call returned: a value that is not awaitable
    raises [TypeError]. *)
Definition await_ (line : nat) (handling : option exn)
    (r : outcome exn returned * World) : outcome exn value * World :=
  match r with
  | (Returned (Awaitable resume), w) => resume handling w
  | (Returned (Plain v), w) =>
      (Raised (interp_error line (lit "TypeError")
                 (lit "object " ++ type_name_of v
                  ++ lit " can't be used in 'await' expression") handling), w)
  | (Raised e, w) => (Raised e, w)
  end.

(** [Action.compensate]. Calling with [*None] raises [TypeError]. *)
Definition compensate (self : Action) (handling : option exn) (w : World)
    : outcome exn value * World :=
  match __code__ (compensation self) with
  | None =>
      (Raised (no_attribute 64 (class_name (compensation self)) (lit "__code__") handling), w)
  | Some c =>
      if truthy (co_varnames c) then
        match compensation_args self with
        | Some seq => await_if_awaitable handling (call (compensation self) handling (elements seq) w)
        | None =>
            (Raised (interp_error 63 (lit "TypeError")
                       (__qualname__ (compensation self)
                        ++ lit "() argument after * must be an iterable, not NoneType")
                       handling), w)
        end
      else await_if_awaitable handling (call (compensation self) handling [] w)
  end.

(** ** The saga *)

(** Identity of an [Action] object. *)
Definition loc := nat.

(** An object that is neither an [Action] nor plain data: the name of its
    class and, when it has an attribute [compensate], what calling that
    attribute does. *)
Record foreign : Type := {
  foreign_class : str;
  foreign_compensate : option (option exn -> World -> outcome exn returned * World)
}.

(** An element of [steps]: an [Action] object, a plain value, which has no
    attribute [compensate], or another object. *)
Inductive element : Type :=
| Step (l : loc)
| NotStep (v : value)
| Foreign (o : foreign).

Record Saga : Type := { steps : list element }.

(** A call made by the engine, with its outcome: [act] on [steps[index]]
    with the given inputs in [execute]; in [_run_compensations],
    [compensate] on [steps[index]] when that is an [Action], and the
    [compensate] of another object that has one. *)
Inductive event : Type :=
| EAct (index : nat) (inputs : list value) (o : outcome exn value)
| ECompensate (index : nat) (o : outcome exn value)
| EForeign (index : nat) (o : outcome exn value).

Record machine : Type := {
  world : World;
  store : loc -> Action;
  log : list event
}.

(** [compensation_exception_tracebacks]: a [dict], in insertion order. *)
Definition errors := list (nat * (exn * str)).

Fixpoint dict_get (d : errors) (k : nat) : option (exn * str) :=
  match d with
  | [] => None
  | (k', v) :: d' => if Nat.eqb k' k then Some v else dict_get d' k
  end.

(** [d[k] = v]. *)
Fixpoint dict_set (d : errors) (k : nat) (v : exn * str) : errors :=
  match d with
  | [] => [(k, v)]
  | (k', v') :: d' => if Nat.eqb k' k then (k', v) :: d' else (k', v') :: dict_set d' k v
  end.

Record SagaError : Type := {
  failed_step_index : nat;
  action_exception : exn;
  action_traceback : str;
  compensation_exception_tracebacks : errors
}.

(** What [execute] raises: the [SagaError] it builds, or a [BaseException]
    that its [except Exception] clauses did not catch. *)
Inductive thrown : Type :=
| Saga_error (failure : SagaError)
| Base_exception (escaped : exn).

(** The separator given to [partition] in [_run_compensations]. *)
Definition handling_marker : str :=
  lit "During handling of the above exception, another exception occurred:" ++ nl ++ nl.

(** [range(n - 1, -1, -1)]. *)
Fixpoint range_down (n : nat) : list nat :=
  match n with
  | 0 => []
  | S j => j :: range_down j
  end.

(** The [try] block of [_run_compensations] at one index. *)
Definition try_compensate (self : Saga) (handling : option exn) (compensation_index : nat)
    (m : machine) : outcome exn value * machine :=
  match nth_error (steps self) compensation_index with
  | None =>
      (Raised (interp_error 100 (lit "IndexError") (lit "list index out of range") handling), m)
  | Some (NotStep v) =>
      (Raised (no_attribute 101 (type_name_of v) (lit "compensate") handling), m)
  | Some (Foreign o) =>
      match foreign_compensate o with
      | None =>
          (Raised (no_attribute 101 (foreign_class o) (lit "compensate") handling), m)
      | Some method =>
          let (r, w) := await_ 101 handling (method handling (world m)) in
          (r, {| world := w; store := store m;
                 log := log m ++ [EForeign compensation_index r] |})
      end
  | Some (Step l) =>
      let (o, w) := compensate (store m l) handling (world m) in
      (o, {| world := w; store := store m; log := log m ++ [ECompensate compensation_index o] |})
  end.

(** One turn of the loop of [_run_compensations]: [except Exception]
    catches an instance of [Exception] and lets any other through. *)
Definition compensation_turn (self : Saga) (handling : option exn)
    (st : errors * machine) (compensation_index : nat) : outcome exn errors * machine :=
  let (compensation_exceptions, m) := st in
  match try_compensate self handling compensation_index m with
  | (Returned _, m') => (Returned compensation_exceptions, m')
  | (Raised exc, m') =>
      if is_exception exc then
        let '(_, _, traceback_str) := partition (format_exc (Some exc)) handling_marker in
        (Returned (dict_set compensation_exceptions compensation_index (exc, traceback_str)),
         m')
      else (Raised exc, m')
  end.

(** The loop of [_run_compensations] over the indices still to visit: an
    exception that a turn lets through ends it. *)
Fixpoint compensation_loop (self : Saga) (handling : option exn)
    (indices : list nat) (st : errors * machine) : outcome exn errors * machine :=
  match indices with
  | [] => (Returned (fst st), snd st)
  | compensation_index :: rest =>
      match compensation_turn self handling st compensation_index with
      | (Returned compensation_exceptions, m') =>
          compensation_loop self handling rest (compensation_exceptions, m')
      | (Raised escaped, m') => (Raised escaped, m')
      end
  end.

(** [Saga._run_compensations]. *)
Definition _run_compensations (self : Saga) (handling : option exn)
    (last_action_index : nat) (m : machine) : outcome exn errors * machine :=
  compensation_loop self handling (range_down last_action_index) ([], m).

(** The result-to-input rule of [execute]. *)
Definition normalize (actioned_result : value) : sequence :=
  match actioned_result with
  | VNone => AsList []
  | VList xs => AsList xs
  | VTuple xs => AsTuple xs
  | other => AsTuple [other]
  end.

Definition set_outcome (a : Action) (args : sequence) (actioned_result : value) : Action :=
  {| action := action a;
     compensation := compensation a;
     compensation_args := Some args;
     result := actioned_result |}.

Definition upd (s : loc -> Action) (l : loc) (a : Action) : loc -> Action :=
  fun l' => if Nat.eqb l' l then a else s l'.

(** The loop of [execute], from position [index], with [rest] still to
    visit. [except Exception] catches an instance of [Exception]; any other
    exception leaves [execute] as it is, and so does one that leaves
    [_run_compensations]. *)
Fixpoint execute_loop (self : Saga) (handling : option exn) (index : nat)
    (rest : list element) (args : sequence) (m : machine)
    : outcome thrown Saga * machine :=
  match rest with
  | [] => (Returned self, m)
  | NotStep _ :: rest' => execute_loop self handling (S index) rest' args m
  | Foreign _ :: rest' => execute_loop self handling (S index) rest' args m
  | Step l :: rest' =>
      let (o, w) := act (store m l) handling (elements args) (world m) in
      let logged := log m ++ [EAct index (elements args) o] in
      match o with
      | Returned actioned_result =>
          let args' := normalize actioned_result in
          execute_loop self handling (S index) rest' args'
            {| world := w;
               store := upd (store m) l (set_outcome (store m l) args' actioned_result);
               log := logged |}
      | Raised exc =>
          let failed := {| world := w; store := store m; log := logged |} in
          if is_exception exc then
            let action_traceback_str := format_exc (Some exc) in
            match _run_compensations self (Some exc) index failed with
            | (Returned compensation_exceptions, m') =>
                (Raised (Saga_error
                           {| failed_step_index := index;
                              action_exception := exc;
                              action_traceback := action_traceback_str;
                              compensation_exception_tracebacks := compensation_exceptions |}),
                 m')
            | (Raised escaped, m') => (Raised (Base_exception escaped), m')
            end
          else (Raised (Base_exception exc), failed)
      end
  end.

(** [Saga.execute]. *)
Definition execute (self : Saga) (handling : option exn) (m : machine)
    : outcome thrown Saga * machine :=
  execute_loop self handling 0 (steps self) (AsList []) m.

(** ** Rendering of a failure *)

(** A method of [SagaError]: it is given the object and hands it back,
    together with its result. *)
Definition method (A : Type) : Type := SagaError -> A * SagaError.

Definition ret {A : Type} (a : A) : method A := fun self => (a, self).

Definition bind {A B : Type} (m : method A) (k : A -> method B) : method B :=
  fun self => let (a, self') := m self in k a self'.

(** Reading an attribute of [self]. *)
Definition attr {A : Type} (field : SagaError -> A) : method A :=
  fun self => (field self, self).

Notation "x <- m ;; k" := (bind m (fun x => k))
  (at level 61, m at next level, right associativity).

(** A list comprehension whose element expression calls methods. *)
Fixpoint comprehension {A B : Type} (f : A -> method B) (xs : list A) : method (list B) :=
  match xs with
  | [] => ret []
  | x :: xs' => b <- f x ;; bs <- comprehension f xs' ;; ret (b :: bs)
  end.

(** [SagaError.format_traceback_indentation]. *)
Definition format_traceback_indentation (traceback_str : str) (indent : nat) : method str :=
  if contains_char 10%N traceback_str then
    ret (join nl (map (fun line => spaces indent ++ [9550%N] ++ line) (splitlines traceback_str)))
  else ret traceback_str.

Definition header_msg : str :=
  lit "A critical error occurred during the saga execution, leading to transaction failure and compensation attempts.".

(** [SagaError.__str__]. A value of the mapping is a pair, which is true. *)
Definition __str__ : method str :=
  index <- attr failed_step_index ;;
  exc <- attr action_exception ;;
  tb <- attr action_traceback ;;
  indented <- format_traceback_indentation tb 2 ;;
  let error_detail_msg :=
    lit "Transaction failed at step index " ++ str_of_nat index ++ lit ": "
    ++ lit "An unexpected " ++ type_name exc
    ++ lit " occurred, triggering the compensation process."
    ++ nl ++ indented in
  mapping <- attr compensation_exception_tracebacks ;;
  compensation_error_msgs <-
    (if existsb (fun _ : exn * str => true) (map snd mapping) then
       msgs <- comprehension
                 (fun item : nat * (exn * str) =>
                    let '(step, (exc, traceback_str)) := item in
                    indented <- format_traceback_indentation traceback_str 6 ;;
                    ret (lit "  - (step index " ++ str_of_nat step
                         ++ lit "): Compensation failed due to a " ++ type_name exc
                         ++ lit ": " ++ message exc ++ nl ++ indented))
                 mapping ;;
       ret (lit "Compensations encountered errors:" ++ nl ++ join nl msgs)
     else ret []) ;;
  ret (strip (join (nl ++ nl) [header_msg; error_detail_msg; compensation_error_msgs])).

(** ** The builder *)

(** [UserCommandOrchestrator]: its [steps], and the store its [Action]
    objects are allocated in, with the next free identity. *)
Record UserCommandOrchestrator : Type := {
  orchestrator_steps : list element;
  next_loc : loc
}.

(** [Action(action, compensation)]. *)
Definition new_Action (action_ compensation_ : callable) : Action :=
  {| action := action_;
     compensation := compensation_;
     compensation_args := None;
     result := VNone |}.

(** [UserCommandOrchestrator.add_step]. *)
Definition add_step (self : UserCommandOrchestrator) (action_ compensation_ : callable)
    (s : loc -> Action) : UserCommandOrchestrator * (loc -> Action) :=
  ({| orchestrator_steps := orchestrator_steps self ++ [Step (next_loc self)];
      next_loc := S (next_loc self) |},
   upd s (next_loc self) (new_Action action_ compensation_)).

(** [UserCommandOrchestrator.execute]. *)
Definition orchestrator_execute (self : UserCommandOrchestrator) (handling : option exn)
    (m : machine) : outcome thrown Saga * machine :=
  execute {| steps := orchestrator_steps self |} handling m.

(** ** Reading a run *)

(** What a run added to the log. *)
Definition events_since (before after : list event) : list event :=
  skipn (length before) after.

(** The calls to [act], in order: position and whether the action returned. *)
Fixpoint acted (evs : list event) : list (nat * bool) :=
  match evs with
  | [] => []
  | EAct i _ (Returned _) :: evs' => (i, true) :: acted evs'
  | EAct i _ (Raised _) :: evs' => (i, false) :: acted evs'
  | ECompensate _ _ :: evs' => acted evs'
  | EForeign _ _ :: evs' => acted evs'
  end.

(** The positions of the [Action]s whose [compensate] was called, in
    order. *)
Fixpoint compensated (evs : list event) : list nat :=
  match evs with
  | [] => []
  | ECompensate j _ :: evs' => j :: compensated evs'
  | EAct _ _ _ :: evs' => compensated evs'
  | EForeign _ _ :: evs' => compensated evs'
  end.

(** The objects held in a list of elements. *)
Fixpoint objects (els : list element) : list loc :=
  match els with
  | [] => []
  | Step l :: els' => l :: objects els'
  | NotStep _ :: els' => objects els'
  | Foreign _ :: els' => objects els'
  end.

(** The inputs of each call to [act] are the normalized result of the call
    before it, and a call that raised is the last one. *)
Fixpoint threaded (inputs : list value) (evs : list event) : Prop :=
  match evs with
  | [] => True
  | EAct _ given (Returned r) :: evs' =>
      given = inputs /\ threaded (elements (normalize r)) evs'
  | EAct _ given (Raised _) :: evs' => given = inputs /\ acted evs' = []
  | ECompensate _ _ :: evs' => threaded inputs evs'
  | EForeign _ _ :: evs' => threaded inputs evs'
  end.

(** The positions, counted from [index], that hold an [Action]. *)
Fixpoint positions (index : nat) (els : list element) : list nat :=
  match els with
  | [] => []
  | Step _ :: els' => index :: positions (S index) els'
  | NotStep _ :: els' => positions (S index) els'
  | Foreign _ :: els' => positions (S index) els'
  end.

Definition is_step_at (self : Saga) (j : nat) : bool :=
  match nth_error (steps self) j with
  | Some (Step _) => true
  | _ => false
  end.

(** The stored trace of a compensation failure. *)
Definition stored_trace (exc : exn) : str :=
  snd (partition (format_exc (Some exc)) handling_marker).

(** The forward phase over elements whose actions all return: the events
    it logs, and the arguments and machine it ends with. *)
Inductive succeeds (handling : option exn)
  : nat -> list element -> sequence -> machine -> list event -> sequence -> machine -> Prop :=
| succeeds_nil index args m :
    succeeds handling index [] args m [] args m
| succeeds_skip index v rest args m evs args' m' :
    succeeds handling (S index) rest args m evs args' m' ->
    succeeds handling index (NotStep v :: rest) args m evs args' m'
| succeeds_pass index o rest args m evs args' m' :
    succeeds handling (S index) rest args m evs args' m' ->
    succeeds handling index (Foreign o :: rest) args m evs args' m'
| succeeds_step index l rest args m r w evs args' m' :
    act (store m l) handling (elements args) (world m) = (Returned r, w) ->
    succeeds handling (S index) rest (normalize r)
      {| world := w;
         store := upd (store m) l (set_outcome (store m l) (normalize r) r);
         log := log m ++ [EAct index (elements args) (Returned r)] |}
      evs args' m' ->
    succeeds handling index (Step l :: rest) args m
      (EAct index (elements args) (Returned r) :: evs) args' m'.

(** ** Lists and logs *)

Lemma range_down_rev_seq (n : nat) : range_down n = rev (seq 0 n).
Proof.
  induction n as [|n IH]; [reflexivity|].
  rewrite seq_S, rev_app_distr. simpl. now rewrite IH.
Qed.

Lemma range_down_lt (n j : nat) : In j (range_down n) <-> j < n.
Proof.
  induction n as [|n IH]; simpl; [lia|]. rewrite IH. lia.
Qed.

Lemma range_down_NoDup (n : nat) : NoDup (range_down n).
Proof.
  induction n as [|n IH]; simpl; constructor; auto.
  rewrite range_down_lt. lia.
Qed.

Lemma acted_app (a b : list event) : acted (a ++ b) = acted a ++ acted b.
Proof.
  induction a as [|[i inp [r|e]|j o|j o] a IH]; simpl; now rewrite ?IH.
Qed.

Lemma compensated_app (a b : list event) : compensated (a ++ b) = compensated a ++ compensated b.
Proof.
  induction a as [|[i inp o|j o|j o] a IH]; simpl; now rewrite ?IH.
Qed.

Definition returned_b (o : outcome exn value) : bool :=
  match o with Returned _ => true | Raised _ => false end.

Lemma acted_In (evs : list event) (i : nat) (inp : list value) (o : outcome exn value) :
  In (EAct i inp o) evs -> In (i, returned_b o) (acted evs).
Proof.
  induction evs as [|[i' inp' [r|e]|j o'|j o'] evs IH]; simpl; intros H; auto.
  - destruct H as [H|H]; [inversion H; subst; now left | right; auto].
  - destruct H as [H|H]; [inversion H; subst; now left | right; auto].
  - destruct H as [H|H]; [discriminate | auto].
  - destruct H as [H|H]; [discriminate | auto].
Qed.

Lemma acted_In_inv (evs : list event) (i : nat) (b : bool) :
  In (i, b) (acted evs) -> exists inp o, In (EAct i inp o) evs /\ returned_b o = b.
Proof.
  induction evs as [|[i' inp' [r|e]|j o'|j o'] evs IH]; simpl; intros H; try contradiction.
  - destruct H as [H|H].
    + inversion H; subst. exists inp', (Returned r). auto.
    + destruct (IH H) as (inp & o & Hin & Hb). exists inp, o. auto.
  - destruct H as [H|H].
    + inversion H; subst. exists inp', (Raised e). auto.
    + destruct (IH H) as (inp & o & Hin & Hb). exists inp, o. auto.
  - destruct (IH H) as (inp & o & Hin & Hb). exists inp, o. auto.
  - destruct (IH H) as (inp & o & Hin & Hb). exists inp, o. auto.
Qed.

Lemma compensated_In (evs : list event) (j : nat) (o : outcome exn value) :
  In (ECompensate j o) evs -> In j (compensated evs).
Proof.
  induction evs as [|[i' inp' o'|j' o'|j' o'] evs IH]; simpl; intros H; auto.
  - destruct H as [H|H]; [discriminate | auto].
  - destruct H as [H|H]; [inversion H; now left | right; auto].
  - destruct H as [H|H]; [discriminate | auto].
Qed.

Lemma events_since_app (before added : list event) :
  events_since before (before ++ added) = added.
Proof.
  unfold events_since. rewrite skipn_app, skipn_all, Nat.sub_diag. reflexivity.
Qed.

Lemma positions_In (els : list element) (index i : nat) :
  In i (positions index els) <->
  index <= i /\ exists l, nth_error els (i - index) = Some (Step l).
Proof.
  revert index. induction els as [|[l|v|o] els IH]; intros index; simpl.
  - split; [contradiction|]. intros [_ [l H]]. destruct (i - index); discriminate.
  - rewrite IH. split.
    + intros [->|[Hle [l' H]]].
      * split; [lia|]. exists l. now rewrite Nat.sub_diag.
      * split; [lia|]. exists l'. replace (i - index) with (S (i - S index)) by lia. exact H.
    + intros [Hle [l' H]]. destruct (Nat.eq_dec index i) as [->|Hne]; [now left|right].
      split; [lia|]. exists l'. replace (i - index) with (S (i - S index)) in H by lia. exact H.
  - rewrite IH. split.
    + intros [Hle [l' H]]. split; [lia|]. exists l'.
      replace (i - index) with (S (i - S index)) by lia. exact H.
    + intros [Hle [l' H]]. destruct (Nat.eq_dec index i) as [->|Hne].
      * rewrite Nat.sub_diag in H. discriminate.
      * split; [lia|]. exists l'. replace (i - index) with (S (i - S index)) in H by lia. exact H.
  - rewrite IH. split.
    + intros [Hle [l' H]]. split; [lia|]. exists l'.
      replace (i - index) with (S (i - S index)) by lia. exact H.
    + intros [Hle [l' H]]. destruct (Nat.eq_dec index i) as [->|Hne].
      * rewrite Nat.sub_diag in H. discriminate.
      * split; [lia|]. exists l'. replace (i - index) with (S (i - S index)) in H by lia. exact H.
Qed.

Lemma objects_In (els : list element) (l : loc) :
  In l (objects els) <-> In (Step l) els.
Proof.
  induction els as [|[l'|v|o] els IH]; simpl.
  - tauto.
  - rewrite IH. split; intros [H|H]; auto; left; congruence.
  - rewrite IH. split; [auto|]. intros [H|H]; [discriminate|auto].
  - rewrite IH. split; [auto|]. intros [H|H]; [discriminate|auto].
Qed.

Lemma objects_app (a b : list element) : objects (a ++ b) = objects a ++ objects b.
Proof.
  induction a as [|[l|v|o] a IH]; simpl; now rewrite ?IH.
Qed.

Lemma dict_get_set_same (d : errors) (k : nat) (v : exn * str) :
  dict_get (dict_set d k v) k = Some v.
Proof.
  induction d as [|[k' v'] d IH]; simpl.
  - now rewrite Nat.eqb_refl.
  - destruct (Nat.eqb k' k) eqn:E; simpl; rewrite E; auto.
Qed.

Lemma dict_get_set_other (d : errors) (k k' : nat) (v : exn * str) :
  k' <> k -> dict_get (dict_set d k v) k' = dict_get d k'.
Proof.
  intros Hne. induction d as [|[k0 v0] d IH]; simpl.
  - destruct (Nat.eqb k k') eqn:E; [apply Nat.eqb_eq in E; congruence | reflexivity].
  - destruct (Nat.eqb k0 k) eqn:E; simpl.
    + apply Nat.eqb_eq in E. subst k0.
      destruct (Nat.eqb k k') eqn:E'; [apply Nat.eqb_eq in E'; congruence | reflexivity].
    + destruct (Nat.eqb k0 k'); auto.
Qed.

(** ** The compensation phase *)

Definition has_entry (d : errors) (j : nat) : bool :=
  match dict_get d j with Some _ => true | None => false end.

(** The keys of the mapping, in insertion order. *)
Definition keys (d : errors) : list nat := map fst d.

(** What [_run_compensations] catches at a position that holds a plain
    value, at one that holds another object without [compensate], and at
    one past the end of [steps]. *)
Definition not_a_step_error (handling : option exn) (v : value) : exn :=
  no_attribute 101 (type_name_of v) (lit "compensate") handling.

Definition no_compensate_error (handling : option exn) (o : foreign) : exn :=
  no_attribute 101 (foreign_class o) (lit "compensate") handling.

Definition out_of_range_error (handling : option exn) : exn :=
  interp_error 100 (lit "IndexError") (lit "list index out of range") handling.

(** Where the outcome [o] of the [try] block at position [j] comes from. *)
Definition origin (self : Saga) (handling : option exn) (added : list event)
    (j : nat) (o : outcome exn value) : Prop :=
  match nth_error (steps self) j with
  | Some (Step _) => In (ECompensate j o) added
  | Some (NotStep v) => o = Raised (not_a_step_error handling v)
  | Some (Foreign f) =>
      match foreign_compensate f with
      | None => o = Raised (no_compensate_error handling f)
      | Some _ => In (EForeign j o) added
      end
  | None => o = Raised (out_of_range_error handling)
  end.

Lemma dict_set_new (d : errors) (k : nat) (v : exn * str) :
  dict_get d k = None -> dict_set d k v = d ++ [(k, v)].
Proof.
  induction d as [|[k' v'] d IH]; simpl; intros H; [reflexivity|].
  destruct (Nat.eqb k' k); [discriminate|]. now rewrite IH.
Qed.

Lemma try_compensate_cases (self : Saga) (handling : option exn) (j : nat) (m : machine) :
  forall o m', try_compensate self handling j m = (o, m') ->
  store m' = store m /\
  exists added,
    log m' = log m ++ added /\
    acted added = [] /\
    compensated added = (if is_step_at self j then [j] else []) /\
    origin self handling added j o /\
    (forall j' o', In (ECompensate j' o') added ->
       j' = j /\ o' = o /\
       exists l w', nth_error (steps self) j = Some (Step l) /\
                    compensate (store m l) handling (world m) = (o, w')) /\
    (forall j' o', In (EForeign j' o') added ->
       j' = j /\ o' = o /\
       exists f method w', nth_error (steps self) j = Some (Foreign f) /\
                           foreign_compensate f = Some method /\
                           await_ 101 handling (method handling (world m)) = (o, w')).
Proof.
  intros o m'. unfold try_compensate, is_step_at, origin.
  destruct (nth_error (steps self) j) as [[l|v|f]|].
  - destruct (compensate (store m l) handling (world m)) as [o0 w] eqn:Hc.
    intros H. inversion H; subst. simpl. split; [reflexivity|].
    exists [ECompensate j o].
    split; [reflexivity|]. split; [reflexivity|]. split; [reflexivity|].
    split; [now left|]. split.
    + intros j' o' [H0|[]]. inversion H0; subst.
      split; [reflexivity|]. split; [reflexivity|]. eauto.
    + intros j' o' [H0|[]]. discriminate.
  - intros H. inversion H; subst. split; [reflexivity|]. exists [].
    rewrite app_nil_r.
    split; [reflexivity|]. split; [reflexivity|]. split; [reflexivity|].
    split; [reflexivity|]. split; intros j' o' [].
  - destruct (foreign_compensate f) as [method|] eqn:Hmethod.
    + destruct (await_ 101 handling (method handling (world m))) as [r w] eqn:Hawait.
      intros H. inversion H; subst. simpl. split; [reflexivity|].
      exists [EForeign j o].
      split; [reflexivity|]. split; [reflexivity|]. split; [reflexivity|].
      split; [now left|]. split.
      * intros j' o' [H0|[]]. discriminate.
      * intros j' o' [H0|[]]. inversion H0; subst.
        split; [reflexivity|]. split; [reflexivity|]. exists f, method, w. auto.
    + intros H. inversion H; subst. split; [reflexivity|]. exists [].
      rewrite app_nil_r.
      split; [reflexivity|]. split; [reflexivity|]. split; [reflexivity|].
      split; [reflexivity|]. split; intros j' o' [].
  - intros H. inversion H; subst. split; [reflexivity|]. exists [].
    rewrite app_nil_r.
    split; [reflexivity|]. split; [reflexivity|]. split; [reflexivity|].
    split; [reflexivity|]. split; intros j' o' [].
Qed.

(** What one turn does with the outcome of its [try] block. *)
Definition after_turn (d : errors) (j : nat) (o : outcome exn value) : outcome exn errors :=
  match o with
  | Returned _ => Returned d
  | Raised exc =>
      if is_exception exc then Returned (dict_set d j (exc, stored_trace exc))
      else Raised exc
  end.

Lemma compensation_turn_cases (self : Saga) (handling : option exn)
    (d : errors) (m : machine) (j : nat) :
  exists o m1,
    try_compensate self handling j m = (o, m1) /\
    compensation_turn self handling (d, m) j = (after_turn d j o, m1).
Proof.
  destruct (try_compensate self handling j m) as [o m1] eqn:Htry.
  exists o, m1. split; [reflexivity|].
  unfold compensation_turn, after_turn. rewrite Htry. destruct o as [v|exc]; [reflexivity|].
  destruct (is_exception exc); [|reflexivity].
  unfold stored_trace.
  destruct (partition (format_exc (Some exc)) handling_marker) as [[a b] c]. reflexivity.
Qed.

Lemma origin_later (self : Saga) (handling : option exn) (first added : list event)
    (j : nat) (o : outcome exn value) :
  origin self handling added j o -> origin self handling (first ++ added) j o.
Proof.
  unfold origin. destruct (nth_error (steps self) j) as [[l|v|f]|]; auto.
  - intros H. apply in_or_app. now right.
  - destruct (foreign_compensate f); auto. intros H. apply in_or_app. now right.
Qed.

Lemma origin_sooner (self : Saga) (handling : option exn) (added later : list event)
    (j : nat) (o : outcome exn value) :
  origin self handling added j o -> origin self handling (added ++ later) j o.
Proof.
  unfold origin. destruct (nth_error (steps self) j) as [[l|v|f]|]; auto.
  - intros H. apply in_or_app. now left.
  - destruct (foreign_compensate f); auto. intros H. apply in_or_app. now left.
Qed.

(** The loop of the compensation phase, whatever its outcome. *)
Lemma compensation_loop_log (self : Saga) (handling : option exn) :
  forall js d m o m',
  compensation_loop self handling js (d, m) = (o, m') ->
  store m' = store m /\
  exists added,
    log m' = log m ++ added /\
    acted added = [] /\
    (forall j o', In (ECompensate j o') added ->
       In j js /\
       exists l w w', nth_error (steps self) j = Some (Step l) /\
                      compensate (store m l) handling w = (o', w')) /\
    (forall j o', In (EForeign j o') added ->
       In j js /\
       exists f method w w', nth_error (steps self) j = Some (Foreign f) /\
                             foreign_compensate f = Some method /\
                             await_ 101 handling (method handling w) = (o', w')) /\
    match o with
    | Returned _ =>
        forall j e, In (ECompensate j (Raised e)) added \/ In (EForeign j (Raised e)) added ->
                    is_exception e = true
    | Raised escaped =>
        is_exception escaped = false /\
        exists j, In (ECompensate j (Raised escaped)) added \/
                  In (EForeign j (Raised escaped)) added
    end.
Proof.
  induction js as [|j0 js IH]; intros d m o m' Hrun; cbn [compensation_loop] in Hrun.
  - inversion Hrun; subst. simpl. split; [reflexivity|]. exists []. rewrite app_nil_r.
    repeat split; try contradiction. intros j e [[]|[]].
  - destruct (compensation_turn_cases self handling d m j0) as (o0 & m1 & Htry & Hturn).
    rewrite Hturn in Hrun.
    destruct (try_compensate_cases _ _ _ _ _ _ Htry)
      as (Hstore1 & first & Hlog1 & Hact1 & _ & _ & Hcomp1 & Hfor1).
    assert (Hfirst_comp : forall j o', In (ECompensate j o') first ->
              In j (j0 :: js) /\
              exists l w w', nth_error (steps self) j = Some (Step l) /\
                             compensate (store m l) handling w = (o', w')).
    { intros j o' Hin. destruct (Hcomp1 j o' Hin) as (-> & -> & l & w' & Hnth & Hc).
      split; [now left|]. eauto. }
    assert (Hfirst_for : forall j o', In (EForeign j o') first ->
              In j (j0 :: js) /\
              exists f method w w', nth_error (steps self) j = Some (Foreign f) /\
                                    foreign_compensate f = Some method /\
                                    await_ 101 handling (method handling w) = (o', w')).
    { intros j o' Hin. destruct (Hfor1 j o' Hin) as (-> & -> & f & method & w' & Hf).
      split; [now left|]. exists f, method, (world m), w'. exact Hf. }
    destruct (after_turn d j0 o0) as [d1|escaped] eqn:Hafter.
    + destruct (IH _ _ _ _ Hrun) as (Hstore & added & Hlog & Hact & Hcomp & Hfor & Hout).
      split; [congruence|]. exists (first ++ added).
      split; [rewrite Hlog, Hlog1, <- app_assoc; reflexivity|].
      split; [rewrite acted_app, Hact1, Hact; reflexivity|].
      split; [|split].
      * intros j o' Hin. apply in_app_or in Hin. destruct Hin as [Hin|Hin]; [auto|].
        destruct (Hcomp j o' Hin) as (Hj & l & w & w' & Hnth & Hc).
        split; [now right|]. exists l, w, w'. rewrite <- Hstore1. auto.
      * intros j o' Hin. apply in_app_or in Hin.
        destruct Hin as [Hin|Hin]; [exact (Hfirst_for _ _ Hin)|].
        destruct (Hfor j o' Hin) as (Hj & Hf). split; [now right | exact Hf].
      * assert (Hfirst_exc : forall j e,
                  In (ECompensate j (Raised e)) first \/ In (EForeign j (Raised e)) first ->
                  is_exception e = true).
        { intros j e Hin.
          assert (Ho : o0 = Raised e).
          { destruct Hin as [Hin|Hin].
            - destruct (Hcomp1 _ _ Hin) as (_ & Ho & _). now symmetry.
            - destruct (Hfor1 _ _ Hin) as (_ & Ho & _). now symmetry. }
          subst o0. simpl in Hafter. destruct (is_exception e); [reflexivity | discriminate]. }
        destruct o as [d'|escaped].
        { intros j e [Hin|Hin]; apply in_app_or in Hin; destruct Hin as [Hin|Hin]; eauto. }
        { destruct Hout as (Hesc & j & Hin). split; [exact Hesc|]. exists j.
          destruct Hin as [Hin|Hin]; [left|right]; apply in_or_app; now right. }
    + inversion Hrun; subst o m'. clear Hrun.
      split; [exact Hstore1|]. exists first.
      split; [exact Hlog1|]. split; [exact Hact1|].
      split; [exact Hfirst_comp|]. split; [exact Hfirst_for|].
      destruct o0 as [v|exc]; [discriminate|]. simpl in Hafter.
      destruct (is_exception exc) eqn:Hexc; [discriminate|]. inversion Hafter; subst escaped.
      split; [exact Hexc|]. exists j0.
      destruct (try_compensate_cases _ _ _ _ _ _ Htry) as (_ & first' & Hlog1' & _ & _ & Horigin & _).
      assert (first' = first) by (rewrite Hlog1 in Hlog1'; now apply app_inv_head in Hlog1').
      subst first'. unfold origin in Horigin.
      destruct (nth_error (steps self) j0) as [[l|v|f]|].
      * now left.
      * inversion Horigin; subst. discriminate.
      * destruct (foreign_compensate f); [now right|]. inversion Horigin; subst. discriminate.
      * inversion Horigin; subst. discriminate.
Qed.

(** The loop of the compensation phase when it runs to the end. *)
Lemma compensation_loop_entries (self : Saga) (handling : option exn) :
  forall js d m d' m' added,
  NoDup js ->
  compensation_loop self handling js (d, m) = (Returned d', m') ->
  log m' = log m ++ added ->
  compensated added = filter (is_step_at self) js /\
  (forall j, ~ In j js -> dict_get d' j = dict_get d j) /\
  (forall j e, In (ECompensate j (Raised e)) added ->
               dict_get d' j = Some (e, stored_trace e)) /\
  (forall j v, In (ECompensate j (Returned v)) added -> dict_get d' j = dict_get d j) /\
  (forall j, In j js ->
     exists o, origin self handling added j o /\
               dict_get d' j = match o with
                               | Raised e => Some (e, stored_trace e)
                               | Returned _ => dict_get d j
                               end) /\
  ((forall j, In j js -> dict_get d j = None) ->
   keys d' = keys d ++ filter (has_entry d') js).
Proof.
  induction js as [|j0 js IH]; intros d m d' m' added Hnd Hrun Hlog;
    cbn [compensation_loop] in Hrun.
  - inversion Hrun; subst. simpl in *.
    assert (added = []) by (rewrite <- (app_nil_r (log m')) in Hlog at 1;
                            now apply app_inv_head in Hlog).
    subst added. simpl. rewrite app_nil_r. repeat split; auto; intros; contradiction.
  - inversion Hnd as [|? ? Hnotin Hnd']; subst.
    destruct (compensation_turn_cases self handling d m j0) as (o0 & m1 & Htry & Hturn).
    rewrite Hturn in Hrun.
    destruct (try_compensate_cases _ _ _ _ _ _ Htry)
      as (Hstore1 & first & Hlog1 & Hact1 & Hcmp1 & Horigin1 & Hcomp1 & Hfor1).
    destruct (after_turn d j0 o0) as [d1|escaped] eqn:Hafter; [|discriminate].
    destruct (compensation_loop_log self handling _ _ _ _ _ Hrun)
      as (_ & rest & Hlogr & _ & Hcompr & _).
    assert (Hadded : added = first ++ rest).
    { rewrite Hlogr, Hlog1, <- app_assoc in Hlog. now apply app_inv_head in Hlog. }
    subst added.
    destruct (IH _ _ _ _ _ Hnd' Hrun Hlogr)
      as (Hcmp & Hother & Hraised & Hreturned & Hentries & Hkeys).
    assert (Hd1 : forall j, j <> j0 -> dict_get d1 j = dict_get d j).
    { intros j Hne. destruct o0 as [v|exc]; simpl in Hafter.
      - now inversion Hafter.
      - destruct (is_exception exc); [|discriminate]. inversion Hafter.
        now apply dict_get_set_other. }
    assert (Hhead : dict_get d' j0 = match o0 with
                                     | Raised e => Some (e, stored_trace e)
                                     | Returned _ => dict_get d j0
                                     end).
    { rewrite (Hother j0 Hnotin). destruct o0 as [v|exc]; simpl in Hafter.
      - now inversion Hafter.
      - destruct (is_exception exc); [|discriminate]. inversion Hafter.
        apply dict_get_set_same. }
    assert (Hrest_in : forall j o', In (ECompensate j o') rest -> j <> j0).
    { intros j o' Hin ->. destruct (Hcompr _ _ Hin) as (Hj & _). contradiction. }
    split; [|split; [|split; [|split; [|split]]]].
    + rewrite compensated_app, Hcmp, Hcmp1. simpl. now destruct (is_step_at self j0).
    + intros j Hnot. simpl in Hnot. rewrite Hother by tauto. apply Hd1. intros ->. tauto.
    + intros j e Hin. apply in_app_or in Hin. destruct Hin as [Hin|Hin]; [|now apply Hraised].
      destruct (Hcomp1 _ _ Hin) as (-> & <- & _). exact Hhead.
    + intros j v Hin. apply in_app_or in Hin. destruct Hin as [Hin|Hin].
      * destruct (Hcomp1 _ _ Hin) as (-> & <- & _). exact Hhead.
      * rewrite (Hreturned _ _ Hin). apply Hd1. eauto.
    + intros j [<-|Hj].
      * exists o0. split; [now apply origin_sooner | exact Hhead].
      * destruct (Hentries j Hj) as (o & Ho & Hget). exists o.
        split; [now apply origin_later|]. rewrite Hget.
        destruct o; [|reflexivity]. apply Hd1. intros ->. contradiction.
    + intros Hfresh. simpl. unfold has_entry at 1. rewrite Hhead.
      assert (Hj0 : dict_get d j0 = None) by (apply Hfresh; now left).
      assert (Hpre : forall j, In j js -> dict_get d1 j = None).
      { intros j Hj. rewrite Hd1; [apply Hfresh; now right | intros ->; contradiction]. }
      rewrite (Hkeys Hpre).
      destruct o0 as [v|exc]; simpl in Hafter.
      * inversion Hafter; subst d1. now rewrite Hj0.
      * destruct (is_exception exc); [|discriminate]. inversion Hafter; subst d1.
        rewrite (dict_set_new _ _ _ Hj0). unfold keys. rewrite map_app, <- app_assoc.
        reflexivity.
Qed.

(** What the [try] block at a position adds to the log. *)
Definition turn_events (self : Saga) (j : nat) (o : outcome exn value) : list event :=
  match nth_error (steps self) j with
  | Some (Step _) => [ECompensate j o]
  | Some (Foreign f) =>
      match foreign_compensate f with
      | Some _ => [EForeign j o]
      | None => []
      end
  | _ => []
  end.

Lemma try_compensate_log (self : Saga) (handling : option exn) (j : nat) (m : machine) :
  forall o m', try_compensate self handling j m = (o, m') ->
  log m' = log m ++ turn_events self j o /\
  (turn_events self j o = [] -> exists e, o = Raised e /\ is_exception e = true).
Proof.
  intros o m'. unfold try_compensate, turn_events.
  destruct (nth_error (steps self) j) as [[l|v|f]|].
  - destruct (compensate (store m l) handling (world m)) as [o0 w].
    intros H. inversion H; subst. simpl. split; [reflexivity | discriminate].
  - intros H. inversion H; subst. rewrite app_nil_r. split; [reflexivity|]. eauto.
  - destruct (foreign_compensate f) as [method|].
    + destruct (await_ 101 handling (method handling (world m))) as [r w].
      intros H. inversion H; subst. simpl. split; [reflexivity | discriminate].
    + intros H. inversion H; subst. rewrite app_nil_r. split; [reflexivity|]. eauto.
  - intros H. inversion H; subst. rewrite app_nil_r. split; [reflexivity|]. eauto.
Qed.

Lemma turn_events_index (self : Saga) (j : nat) (o : outcome exn value) :
  forall i o', In (ECompensate i o') (turn_events self j o) \/
               In (EForeign i o') (turn_events self j o) -> i = j.
Proof.
  intros i o'. unfold turn_events.
  destruct (nth_error (steps self) j) as [[l|v|f]|]; simpl.
  - intros [[H|[]]|[H|[]]]; [now inversion H | discriminate].
  - intros [[]|[]].
  - destruct (foreign_compensate f); simpl.
    + intros [[H|[]]|[H|[]]]; [discriminate | now inversion H].
    + intros [[]|[]].
  - intros [[]|[]].
Qed.

(** The loop of the compensation phase when a turn lets an exception
    through: the call that raised it is the last one logged, and the
    indices after it were not visited. *)
Lemma compensation_loop_raised (self : Saga) (handling : option exn) :
  forall js d m escaped m',
  compensation_loop self handling js (d, m) = (Raised escaped, m') ->
  exists js1 j js2 before,
    js = js1 ++ j :: js2 /\
    (log m' = log m ++ before ++ [ECompensate j (Raised escaped)] \/
     log m' = log m ++ before ++ [EForeign j (Raised escaped)]) /\
    (forall i o, In (ECompensate i o) before \/ In (EForeign i o) before -> In i js1).
Proof.
  induction js as [|j0 js IH]; intros d m escaped m' Hrun; cbn [compensation_loop] in Hrun.
  - discriminate.
  - destruct (compensation_turn_cases self handling d m j0) as (o0 & m1 & Htry & Hturn).
    rewrite Hturn in Hrun.
    destruct (try_compensate_log _ _ _ _ _ _ Htry) as (Hlog1 & Hsilent).
    destruct (after_turn d j0 o0) as [d1|escaped0] eqn:Hafter.
    + destruct (IH _ _ _ _ Hrun) as (js1 & j & js2 & before & Hjs & Hlog & Hbefore).
      exists (j0 :: js1), j, js2, (turn_events self j0 o0 ++ before).
      split; [now rewrite Hjs|]. split.
      * rewrite Hlog1 in Hlog. rewrite <- !app_assoc in *. exact Hlog.
      * intros i o [Hin|Hin]; apply in_app_or in Hin; destruct Hin as [Hin|Hin].
        { left. symmetry. apply (turn_events_index self j0 o0 i o). now left. }
        { right. apply (Hbefore i o). now left. }
        { left. symmetry. apply (turn_events_index self j0 o0 i o). now right. }
        { right. apply (Hbefore i o). now right. }
    + inversion Hrun; subst escaped0 m1. clear Hrun.
      destruct o0 as [v|exc]; [discriminate|]. simpl in Hafter.
      destruct (is_exception exc) eqn:Hexc; [discriminate|]. inversion Hafter; subst exc.
      exists [], j0, js, [].
      split; [reflexivity|]. split; [|intros i o [[]|[]]].
      rewrite Hlog1. simpl. unfold turn_events in *.
      destruct (nth_error (steps self) j0) as [[l|v|f]|].
      * now left.
      * destruct (Hsilent eq_refl) as (e & He & Hexc'). inversion He; subst. congruence.
      * destruct (foreign_compensate f).
        { now right. }
        { destruct (Hsilent eq_refl) as (e & He & Hexc'). inversion He; subst. congruence. }
      * destruct (Hsilent eq_refl) as (e & He & Hexc'). inversion He; subst. congruence.
Qed.

Lemma range_down_split (k j : nat) (a b : list nat) :
  range_down k = a ++ j :: b -> j < k /\ (forall i, In i a -> j < i < k).
Proof.
  revert a. induction k as [|n IH]; intros a H; simpl in H.
  - destruct a; discriminate.
  - destruct a as [|x a]; simpl in H.
    + inversion H; subst. split; [lia | intros i []].
    + inversion H; subst x. destruct (IH a H2) as (Hj & Ha).
      split; [lia|]. intros i [<-|Hi]; [lia|]. specialize (Ha i Hi). lia.
Qed.

(** [_run_compensations] as a whole: what it logs and, when it returns,
    the mapping it returns. *)
Lemma run_compensations_spec (self : Saga) (handling : option exn) (k : nat) (m : machine) :
  forall o m', _run_compensations self handling k m = (o, m') ->
  store m' = store m /\
  exists added,
    log m' = log m ++ added /\
    acted added = [] /\
    (forall j o', In (ECompensate j o') added ->
       j < k /\
       exists l w w', nth_error (steps self) j = Some (Step l) /\
                      compensate (store m l) handling w = (o', w')) /\
    (forall j o', In (EForeign j o') added ->
       j < k /\
       exists f method w w', nth_error (steps self) j = Some (Foreign f) /\
                             foreign_compensate f = Some method /\
                             await_ 101 handling (method handling w) = (o', w')) /\
    match o with
    | Returned d =>
        (forall j e, In (ECompensate j (Raised e)) added \/ In (EForeign j (Raised e)) added ->
                     is_exception e = true) /\
        compensated added = filter (is_step_at self) (range_down k) /\
        (forall j e, In (ECompensate j (Raised e)) added ->
                     dict_get d j = Some (e, stored_trace e)) /\
        (forall j v, In (ECompensate j (Returned v)) added -> dict_get d j = None) /\
        (forall j, j < k ->
           exists o0, origin self handling added j o0 /\
                      dict_get d j = match o0 with
                                     | Raised e => Some (e, stored_trace e)
                                     | Returned _ => None
                                     end) /\
        (forall j, k <= j -> dict_get d j = None) /\
        keys d = filter (has_entry d) (range_down k)
    | Raised escaped =>
        is_exception escaped = false /\
        exists j, In (ECompensate j (Raised escaped)) added \/
                  In (EForeign j (Raised escaped)) added
    end.
Proof.
  unfold _run_compensations. intros o m' Hrun.
  destruct (compensation_loop_log self handling _ _ _ _ _ Hrun)
    as (Hstore & added & Hlog & Hact & Hcomp & Hfor & Hout).
  split; [exact Hstore|]. exists added.
  split; [exact Hlog|]. split; [exact Hact|].
  split; [|split].
  - intros j o' Hin. destruct (Hcomp j o' Hin) as (Hj & Htie).
    split; [now apply range_down_lt | exact Htie].
  - intros j o' Hin. destruct (Hfor j o' Hin) as (Hj & Hf).
    split; [now apply range_down_lt | exact Hf].
  - destruct o as [d|escaped]; [|exact Hout].
    destruct (compensation_loop_entries self handling _ _ _ _ _ added
                (range_down_NoDup k) Hrun Hlog)
      as (Hcmp & Hother & Hraised & Hreturned & Hentries & Hkeys).
    split; [exact Hout|]. split; [exact Hcmp|]. split; [exact Hraised|].
    split; [intros j v Hin; now rewrite (Hreturned j v Hin)|].
    split; [|split].
    + intros j Hj. apply range_down_lt in Hj. exact (Hentries j Hj).
    + intros j Hj. rewrite Hother; [reflexivity|]. rewrite range_down_lt. lia.
    + now rewrite Hkeys.
Qed.

(** ** The forward phase *)

Lemma succeeds_log handling index els args m evs args' m' :
  succeeds handling index els args m evs args' m' -> log m' = log m ++ evs.
Proof.
  induction 1 as [| | |index l rest args m r w evs args' m' Hact Hrest IH].
  - now rewrite app_nil_r.
  - assumption.
  - assumption.
  - rewrite IH. simpl. now rewrite <- app_assoc.
Qed.

Lemma succeeds_acted handling index els args m evs args' m' :
  succeeds handling index els args m evs args' m' ->
  acted evs = map (fun i => (i, true)) (positions index els).
Proof.
  induction 1; simpl; congruence.
Qed.

Lemma succeeds_compensated handling index els args m evs args' m' :
  succeeds handling index els args m evs args' m' -> compensated evs = [].
Proof.
  induction 1; simpl; auto.
Qed.

Lemma succeeds_threaded handling index els args m evs args' m' :
  succeeds handling index els args m evs args' m' ->
  forall tail, threaded (elements args') tail -> threaded (elements args) (evs ++ tail).
Proof.
  induction 1; intros tail Htail; simpl; auto.
Qed.

Lemma succeeds_frame handling index els args m evs args' m' :
  succeeds handling index els args m evs args' m' ->
  forall l, ~ In l (objects els) -> store m' l = store m l.
Proof.
  induction 1 as [| | |index l0 rest args m r w evs args' m' Hact Hrest IH];
    intros l Hnot; simpl in *; auto.
  rewrite IH by tauto. simpl. unfold upd.
  destruct (Nat.eqb l l0) eqn:E; [|reflexivity].
  apply Nat.eqb_eq in E. exfalso. apply Hnot. left. congruence.
Qed.

(** The forward phase never replaces a callable. *)
Lemma succeeds_callables handling index els args m evs args' m' :
  succeeds handling index els args m evs args' m' ->
  forall l, action (store m' l) = action (store m l) /\
            compensation (store m' l) = compensation (store m l).
Proof.
  induction 1 as [| | |index l0 rest args m r w evs args' m' Hact Hrest IH];
    intros l; auto.
  destruct (IH l) as (Ha & Hc). rewrite Ha, Hc. simpl. unfold upd.
  destruct (Nat.eqb l l0) eqn:E; [|auto].
  apply Nat.eqb_eq in E. subst. auto.
Qed.

(** A call to [act] that returns is a call of the action that returns. *)
Lemma act_returned_calls (a : Action) (handling : option exn) (args : list value)
    (w w' : World) (o : outcome exn value) :
  act a handling args w = (o, w') ->
  (exists r, o = Returned r) ->
  exists c, __code__ (action a) = Some c /\
            await_if_awaitable handling
              (call (action a) handling (if truthy (co_varnames c) then args else []) w)
            = (o, w').
Proof.
  unfold act. intros H (r & ->). destruct (__code__ (action a)) as [c|]; [|discriminate].
  exists c. auto.
Qed.

(** A call to [compensate] is a call of the compensation, when that is a
    function and [compensation_args] has been set. *)
Lemma compensate_calls (a : Action) (handling : option exn) (w w' : World)
    (o : outcome exn value) (c : code) (seq : sequence) :
  compensate a handling w = (o, w') ->
  __code__ (compensation a) = Some c ->
  compensation_args a = Some seq ->
  await_if_awaitable handling
    (call (compensation a) handling (if truthy (co_varnames c) then elements seq else []) w)
  = (o, w').
Proof.
  unfold compensate. intros H Hc Hseq. rewrite Hc, Hseq in H.
  destruct (truthy (co_varnames c)); exact H.
Qed.

Lemma succeeds_fields handling index els args m evs args' m' :
  succeeds handling index els args m evs args' m' ->
  NoDup (objects els) ->
  forall j l, nth_error els j = Some (Step l) ->
  exists inputs r,
    In (EAct (index + j) inputs (Returned r)) evs /\
    result (store m' l) = r /\
    compensation_args (store m' l) = Some (normalize r).
Proof.
  induction 1 as [index args m|index v rest args m evs args' m' Hrest IH
                 |index f rest args m evs args' m' Hrest IH
                 |index l0 rest args m r w evs args' m' Hact Hrest IH];
    intros Hnd j l Hnth.
  - destruct j; discriminate.
  - destruct j as [|j]; [discriminate|]. simpl in Hnth, Hnd.
    destruct (IH Hnd j l Hnth) as (inputs & r & Hin & Hres & Hargs).
    exists inputs, r. rewrite Nat.add_succ_r. auto.
  - destruct j as [|j]; [discriminate|]. simpl in Hnth, Hnd.
    destruct (IH Hnd j l Hnth) as (inputs & r & Hin & Hres & Hargs).
    exists inputs, r. rewrite Nat.add_succ_r. auto.
  - simpl in Hnd. inversion Hnd as [|? ? Hnotin Hnd']; subst.
    destruct j as [|j]; simpl in Hnth.
    + inversion Hnth; subst l0. exists (elements args), r.
      rewrite Nat.add_0_r. split; [now left|].
      rewrite (succeeds_frame _ _ _ _ _ _ _ _ Hrest l Hnotin). simpl. unfold upd.
      rewrite Nat.eqb_refl. simpl. auto.
    + destruct (IH Hnd' j l Hnth) as (inputs & r' & Hin & Hres & Hargs).
      exists inputs, r'. rewrite Nat.add_succ_r. split; [now right|auto].
Qed.


(** A run of the loop of [execute] either goes through all the elements,
    or goes through the elements before the first action that raises; an
    instance of [Exception] then starts the compensations and the failure
    is raised when they are over, whereas any other exception, from the
    action or from the compensations, leaves the loop as it is. *)
Lemma execute_loop_cases (self : Saga) (handling : option exn) :
  forall rest index args m,
  (exists evs args' m',
     succeeds handling index rest args m evs args' m' /\
     execute_loop self handling index rest args m = (Returned self, m'))
  \/
  (exists pre l post evs args_k m_k exc w,
     rest = pre ++ Step l :: post /\
     succeeds handling index pre args m evs args_k m_k /\
     act (store m_k l) handling (elements args_k) (world m_k) = (Raised exc, w) /\
     execute_loop self handling index rest args m
     = let failed :=
         {| world := w;
            store := store m_k;
            log := log m_k ++ [EAct (index + length pre) (elements args_k) (Raised exc)] |} in
       if is_exception exc then
         match _run_compensations self (Some exc) (index + length pre) failed with
         | (Returned d, m') =>
             (Raised (Saga_error {| failed_step_index := index + length pre;
                                    action_exception := exc;
                                    action_traceback := format_exc (Some exc);
                                    compensation_exception_tracebacks := d |}), m')
         | (Raised escaped, m') => (Raised (Base_exception escaped), m')
         end
       else (Raised (Base_exception exc), failed)).
Proof.
  induction rest as [|[l|v|f] rest IH]; intros index args m.
  - left. exists [], args, m. split; [constructor | reflexivity].
  - cbn [execute_loop].
    destruct (act (store m l) handling (elements args) (world m)) as [[r|exc] w] eqn:Hact.
    + match goal with
      | |- context [execute_loop self handling (S index) rest ?a ?m1] =>
          destruct (IH (S index) a m1)
            as [(evs & args' & m' & Hs & Heq)
               |(pre & l' & post & evs & args_k & m_k & exc & w' &
                 Hrest & Hs & Hraise & Heq)]
      end.
      * left. exists (EAct index (elements args) (Returned r) :: evs), args', m'.
        split; [econstructor; eauto | exact Heq].
      * right.
        exists (Step l :: pre), l', post,
               (EAct index (elements args) (Returned r) :: evs), args_k, m_k, exc, w'.
        simpl length. rewrite Nat.add_succ_r.
        split; [now rewrite Hrest|]. split; [econstructor; eauto|]. auto.
    + right.
      exists [], l, rest, [], args, m, exc, w.
      simpl length. rewrite Nat.add_0_r.
      split; [reflexivity|]. split; [constructor|]. auto.
  - cbn [execute_loop].
    destruct (IH (S index) args m)
      as [(evs & args' & m' & Hs & Heq)
         |(pre & l' & post & evs & args_k & m_k & exc & w' &
           Hrest & Hs & Hraise & Heq)].
    + left. exists evs, args', m'. split; [now constructor | exact Heq].
    + right. exists (NotStep v :: pre), l', post, evs, args_k, m_k, exc, w'.
      simpl length. rewrite Nat.add_succ_r.
      split; [now rewrite Hrest|]. split; [now constructor|]. auto.
  - cbn [execute_loop].
    destruct (IH (S index) args m)
      as [(evs & args' & m' & Hs & Heq)
         |(pre & l' & post & evs & args_k & m_k & exc & w' &
           Hrest & Hs & Hraise & Heq)].
    + left. exists evs, args', m'. split; [now constructor | exact Heq].
    + right. exists (Foreign f :: pre), l', post, evs, args_k, m_k, exc, w'.
      simpl length. rewrite Nat.add_succ_r.
      split; [now rewrite Hrest|]. split; [now constructor|]. auto.
Qed.

Lemma succeeds_event_position handling index els args m evs args' m' :
  succeeds handling index els args m evs args' m' ->
  forall i inputs o, In (EAct i inputs o) evs ->
  index <= i /\ (exists l, nth_error els (i - index) = Some (Step l)) /\ returned_b o = true.
Proof.
  intros Hs i inputs o Hin. apply acted_In in Hin.
  rewrite (succeeds_acted _ _ _ _ _ _ _ _ Hs) in Hin.
  apply in_map_iff in Hin. destruct Hin as (i' & Heq & Hpos).
  inversion Heq; subst. apply positions_In in Hpos. tauto.
Qed.

Lemma succeeds_fields_of_event handling index els args m evs args' m' :
  succeeds handling index els args m evs args' m' ->
  NoDup (objects els) ->
  forall i inputs r l,
  In (EAct i inputs (Returned r)) evs ->
  nth_error els (i - index) = Some (Step l) ->
  result (store m' l) = r /\ compensation_args (store m' l) = Some (normalize r).
Proof.
  induction 1 as [index args m|index v rest args m evs args' m' Hrest IH
                 |index f rest args m evs args' m' Hrest IH
                 |index l0 rest args m r0 w evs args' m' Hact Hrest IH];
    intros Hnd i inputs r l Hin Hnth.
  - contradiction.
  - destruct (succeeds_event_position _ _ _ _ _ _ _ _ Hrest _ _ _ Hin) as (Hle & _).
    replace (i - index) with (S (i - S index)) in Hnth by lia.
    simpl in Hnth, Hnd. eauto.
  - destruct (succeeds_event_position _ _ _ _ _ _ _ _ Hrest _ _ _ Hin) as (Hle & _).
    replace (i - index) with (S (i - S index)) in Hnth by lia.
    simpl in Hnth, Hnd. eauto.
  - simpl in Hnd. inversion Hnd as [|? ? Hnotin Hnd']; subst.
    destruct Hin as [Heq|Hin].
    + inversion Heq; subst. rewrite Nat.sub_diag in Hnth. simpl in Hnth.
      inversion Hnth; subst l0.
      rewrite (succeeds_frame _ _ _ _ _ _ _ _ Hrest l Hnotin). simpl. unfold upd.
      rewrite Nat.eqb_refl. simpl. auto.
    + destruct (succeeds_event_position _ _ _ _ _ _ _ _ Hrest _ _ _ Hin) as (Hle & _).
      replace (i - index) with (S (i - S index)) in Hnth by lia.
      simpl in Hnth. eauto.
Qed.

Lemma filter_all {A : Type} (f : A -> bool) (xs : list A) :
  (forall x, In x xs -> f x = true) -> filter f xs = xs.
Proof.
  induction xs as [|x xs IH]; simpl; intros H; [reflexivity|].
  rewrite (H x) by auto. f_equal. auto.
Qed.

(** ** A whole run *)

(** What [execute] raises once the compensations are over. *)
Definition failure_with (k : nat) (exc : exn) (d : errors) : thrown :=
  Saga_error {| failed_step_index := k;
                action_exception := exc;
                action_traceback := format_exc (Some exc);
                compensation_exception_tracebacks := d |}.

(** What a run of [execute] looks like: the forward phase over all the
    elements, or over those before the failing one, followed, when the
    action raised an instance of [Exception], by the compensation phase. *)
Lemma execute_shape (self : Saga) (handling : option exn) (m : machine) :
  let run := execute self handling m in
  let evs := events_since (log m) (log (snd run)) in
  (exists args',
     succeeds handling 0 (steps self) (AsList []) m evs args' (snd run) /\
     fst run = Returned self)
  \/
  (exists pre l post evs0 args_k m_k exc w added,
     steps self = pre ++ Step l :: post /\
     succeeds handling 0 pre (AsList []) m evs0 args_k m_k /\
     act (store m_k l) handling (elements args_k) (world m_k) = (Raised exc, w) /\
     evs = evs0 ++ EAct (length pre) (elements args_k) (Raised exc) :: added /\
     acted added = [] /\
     store (snd run) = store m_k /\
     (forall j o, In (ECompensate j o) added ->
        j < length pre /\
        exists l' w1 w2, nth_error (steps self) j = Some (Step l') /\
                         compensate (store m_k l') (Some exc) w1 = (o, w2)) /\
     (forall j o, In (EForeign j o) added ->
        j < length pre /\
        exists f method w1 w2, nth_error (steps self) j = Some (Foreign f) /\
                               foreign_compensate f = Some method /\
                               await_ 101 (Some exc) (method (Some exc) w1) = (o, w2)) /\
     ((is_exception exc = false /\ added = [] /\
       fst run = Raised (Base_exception exc))
      \/
      (is_exception exc = true /\
       exists o,
         _run_compensations self (Some exc) (length pre)
           {| world := w;
              store := store m_k;
              log := log m_k ++ [EAct (length pre) (elements args_k) (Raised exc)] |}
         = (o, snd run) /\
         match o with
         | Returned d =>
             fst run = Raised (failure_with (length pre) exc d) /\
             (forall j e, In (ECompensate j (Raised e)) added \/
                          In (EForeign j (Raised e)) added -> is_exception e = true) /\
             compensated added = filter (is_step_at self) (range_down (length pre)) /\
             (forall j e, In (ECompensate j (Raised e)) added ->
                          dict_get d j = Some (e, stored_trace e)) /\
             (forall j v, In (ECompensate j (Returned v)) added -> dict_get d j = None) /\
             (forall j, j < length pre ->
                exists o0, origin self (Some exc) added j o0 /\
                           dict_get d j = match o0 with
                                          | Raised e => Some (e, stored_trace e)
                                          | Returned _ => None
                                          end) /\
             (forall j, length pre <= j -> dict_get d j = None) /\
             keys d = filter (has_entry d) (range_down (length pre))
         | Raised escaped =>
             fst run = Raised (Base_exception escaped) /\
             is_exception escaped = false /\
             exists j, In (ECompensate j (Raised escaped)) added \/
                       In (EForeign j (Raised escaped)) added
         end))).
Proof.
  intros run evs. subst run evs. unfold execute.
  destruct (execute_loop_cases self handling (steps self) 0 (AsList []) m)
    as [(evs & args' & m' & Hs & Heq)
       |(pre & l & post & evs0 & args_k & m_k & exc & w &
         Hrest & Hs & Hraise & Heq)].
  - left. rewrite Heq. simpl. exists args'.
    rewrite (succeeds_log _ _ _ _ _ _ _ _ Hs), events_since_app. auto.
  - right. rewrite Heq. cbv zeta. simpl Nat.add.
    destruct (is_exception exc) eqn:Hexc.
    + destruct (_run_compensations self (Some exc) (length pre)
                  {| world := w; store := store m_k;
                     log := log m_k ++ [EAct (length pre) (elements args_k) (Raised exc)] |})
        as [o m'] eqn:Hcomp.
      destruct (run_compensations_spec _ _ _ _ _ _ Hcomp)
        as (Hstore & added & Hlog & Hact & Hcomp_ev & Hfor_ev & Hout).
      simpl in Hlog, Hstore.
      assert (Hevs : events_since (log m) (log m')
                     = evs0 ++ EAct (length pre) (elements args_k) (Raised exc) :: added).
      { rewrite Hlog, (succeeds_log _ _ _ _ _ _ _ _ Hs).
        rewrite <- !app_assoc, events_since_app. reflexivity. }
      exists pre, l, post, evs0, args_k, m_k, exc, w, added.
      unfold failure_with in *.
      destruct o as [d|escaped]; simpl snd; simpl fst;
        (split; [exact Hrest|]); (split; [exact Hs|]); (split; [exact Hraise|]);
        (split; [exact Hevs|]); (split; [exact Hact|]); (split; [exact Hstore|]);
        (split; [exact Hcomp_ev|]); (split; [exact Hfor_ev|]);
        right; (split; [exact Hexc|]).
      * exists (Returned d). split; [exact Hcomp|]. split; [reflexivity|]. exact Hout.
      * exists (Raised escaped). split; [exact Hcomp|]. split; [reflexivity|]. exact Hout.
    + exists pre, l, post, evs0, args_k, m_k, exc, w, []. simpl snd. simpl fst. simpl log.
      split; [exact Hrest|]. split; [exact Hs|]. split; [exact Hraise|].
      split.
      { rewrite (succeeds_log _ _ _ _ _ _ _ _ Hs).
        rewrite <- !app_assoc, events_since_app. reflexivity. }
      split; [reflexivity|]. split; [reflexivity|].
      split; [intros j o []|]. split; [intros j o []|].
      left. auto.
Qed.

(** The shape of a run of [execute] that raises a [SagaError]. *)
Lemma execute_failure_shape (self : Saga) (handling : option exn) (m : machine)
    (failure : SagaError) :
  let run := execute self handling m in
  let evs := events_since (log m) (log (snd run)) in
  fst run = Raised (Saga_error failure) ->
  exists pre l post evs0 args_k m_k exc w added d,
    steps self = pre ++ Step l :: post /\
    succeeds handling 0 pre (AsList []) m evs0 args_k m_k /\
    act (store m_k l) handling (elements args_k) (world m_k) = (Raised exc, w) /\
    evs = evs0 ++ EAct (length pre) (elements args_k) (Raised exc) :: added /\
    acted added = [] /\
    store (snd run) = store m_k /\
    (forall j o, In (ECompensate j o) added ->
       j < length pre /\
       exists l' w1 w2, nth_error (steps self) j = Some (Step l') /\
                        compensate (store m_k l') (Some exc) w1 = (o, w2)) /\
    is_exception exc = true /\
    _run_compensations self (Some exc) (length pre)
      {| world := w;
         store := store m_k;
         log := log m_k ++ [EAct (length pre) (elements args_k) (Raised exc)] |}
    = (Returned d, snd run) /\
    failure = {| failed_step_index := length pre;
                 action_exception := exc;
                 action_traceback := format_exc (Some exc);
                 compensation_exception_tracebacks := d |} /\
    compensated added = filter (is_step_at self) (range_down (length pre)) /\
    (forall j e, In (ECompensate j (Raised e)) added ->
                 dict_get d j = Some (e, stored_trace e)) /\
    (forall j v, In (ECompensate j (Returned v)) added -> dict_get d j = None) /\
    (forall j, j < length pre ->
       exists o0, origin self (Some exc) added j o0 /\
                  dict_get d j = match o0 with
                                 | Raised e => Some (e, stored_trace e)
                                 | Returned _ => None
                                 end) /\
    (forall j, length pre <= j -> dict_get d j = None) /\
    keys d = filter (has_entry d) (range_down (length pre)).
Proof.
  cbv zeta. intros Hraised.
  destruct (execute_shape self handling m)
    as [(args' & Hs & Hfst)
       |(pre & l & post & evs0 & args_k & m_k & exc & w & added &
         Hsteps & Hs & Hraise & Hevs & Hact & Hstore & Hcomp_ev & _ & Hcases)].
  { rewrite Hfst in Hraised. discriminate. }
  destruct Hcases as [(_ & _ & Hfst)|(Hexc & o & Hrun & Hout)].
  { rewrite Hfst in Hraised. discriminate. }
  destruct o as [d|escaped].
  2:{ destruct Hout as (Hfst & _). rewrite Hfst in Hraised. discriminate. }
  destruct Hout as (Hfst & _ & Hcmp & Hrec & Hret & Hent & Habove & Hkeys).
  rewrite Hfst in Hraised. unfold failure_with in Hraised. inversion Hraised; subst failure.
  exists pre, l, post, evs0, args_k, m_k, exc, w, added, d.
  repeat (split; [assumption || reflexivity|]). assumption.
Qed.

Lemma acted_failed_run (evs0 added : list event) (k : nat) (inputs : list value) (exc : exn)
    (pre : list element) :
  acted evs0 = map (fun i => (i, true)) (positions 0 pre) ->
  acted added = [] ->
  acted (evs0 ++ EAct k inputs (Raised exc) :: added)
  = map (fun i => (i, true)) (positions 0 pre) ++ [(k, false)].
Proof.
  intros H0 Ha. rewrite acted_app. simpl. now rewrite H0, Ha.
Qed.

Lemma positions_step_at (self : Saga) (pre post : list element) (i : nat) :
  steps self = pre ++ post ->
  In i (positions 0 pre) -> is_step_at self i = true /\ i < length pre.
Proof.
  intros Hsteps Hin. apply positions_In in Hin. destruct Hin as (_ & l & Hnth).
  rewrite Nat.sub_0_r in Hnth.
  assert (Hlt : i < length pre) by (apply nth_error_Some; congruence).
  split; [|exact Hlt]. unfold is_step_at. rewrite Hsteps, nth_error_app1 by exact Hlt.
  now rewrite Hnth.
Qed.

(** The forward phase logs calls to [act] that returned, and nothing else. *)
Lemma succeeds_events handling index els args m evs args' m' :
  succeeds handling index els args m evs args' m' ->
  forall ev, In ev evs -> exists i inputs r, ev = EAct i inputs (Returned r).
Proof.
  induction 1 as [| | |index l rest args m r w evs args' m' Hact Hrest IH];
    intros ev Hin; auto.
  - contradiction.
  - destruct Hin as [<-|Hin]; eauto.
Qed.

(** In the log of a failed run, the events around the call that raised. *)
Lemma failed_run_events handling index pre args m evs0 args_k m_k
    (added : list event) (k : nat) (inputs : list value) (exc : exn) :
  succeeds handling index pre args m evs0 args_k m_k ->
  acted added = [] ->
  let evs := evs0 ++ EAct k inputs (Raised exc) :: added in
  (forall k' inputs' exc', In (EAct k' inputs' (Raised exc')) evs ->
     k' = k /\ inputs' = inputs /\ exc' = exc) /\
  (forall i given r, In (EAct i given (Returned r)) evs -> In (EAct i given (Returned r)) evs0) /\
  (forall j o, In (ECompensate j o) evs <-> In (ECompensate j o) added) /\
  (forall j o, In (EForeign j o) evs <-> In (EForeign j o) added).
Proof.
  intros Hs Hact evs. subst evs.
  assert (Hno : forall ev, In ev added -> forall i given o, ev <> EAct i given o).
  { intros ev Hin i given o ->. apply acted_In in Hin. rewrite Hact in Hin. contradiction. }
  split; [|split; [|split]].
  - intros k' inputs' exc' Hin. apply in_app_or in Hin. destruct Hin as [Hin|[Heq|Hin]].
    + destruct (succeeds_events _ _ _ _ _ _ _ _ Hs _ Hin) as (i & given & r & Heq). discriminate.
    + inversion Heq. auto.
    + exfalso. exact (Hno _ Hin _ _ _ eq_refl).
  - intros i given r Hin. apply in_app_or in Hin. destruct Hin as [Hin|[Heq|Hin]].
    + exact Hin.
    + discriminate.
    + exfalso. exact (Hno _ Hin _ _ _ eq_refl).
  - intros j o. split.
    + intros Hin. apply in_app_or in Hin. destruct Hin as [Hin|[Heq|Hin]].
      * destruct (succeeds_events _ _ _ _ _ _ _ _ Hs _ Hin) as (i & given & r & Heq). discriminate.
      * discriminate.
      * exact Hin.
    + intros Hin. apply in_or_app. right. now right.
  - intros j o. split.
    + intros Hin. apply in_app_or in Hin. destruct Hin as [Hin|[Heq|Hin]].
      * destruct (succeeds_events _ _ _ _ _ _ _ _ Hs _ Hin) as (i & given & r & Heq). discriminate.
      * discriminate.
      * exact Hin.
    + intros Hin. apply in_or_app. right. now right.
Qed.

Lemma succeeds_object_fields handling index els args m evs args' m' :
  succeeds handling index els args m evs args' m' ->
  forall l, In l (objects els) ->
  exists j inputs r,
    nth_error els j = Some (Step l) /\
    In (EAct (index + j) inputs (Returned r)) evs /\
    result (store m' l) = r /\
    compensation_args (store m' l) = Some (normalize r).
Proof.
  induction 1 as [index args m|index v rest args m evs args' m' Hrest IH
                 |index f rest args m evs args' m' Hrest IH
                 |index l0 rest args m r w evs args' m' Hact Hrest IH];
    intros l Hin; simpl in Hin.
  - contradiction.
  - destruct (IH l Hin) as (j & inputs & r & Hnth & Hev & Hres & Hargs).
    exists (S j), inputs, r. rewrite Nat.add_succ_r. auto.
  - destruct (IH l Hin) as (j & inputs & r & Hnth & Hev & Hres & Hargs).
    exists (S j), inputs, r. rewrite Nat.add_succ_r. auto.
  - destruct (in_dec Nat.eq_dec l (objects rest)) as [Hlater|Hnot].
    + destruct (IH l Hlater) as (j & inputs & r' & Hnth & Hev & Hres & Hargs).
      exists (S j), inputs, r'. rewrite Nat.add_succ_r. simpl. auto.
    + destruct Hin as [->|Hin]; [|contradiction].
      exists 0, (elements args), r. rewrite Nat.add_0_r.
      split; [reflexivity|]. split; [now left|].
      rewrite (succeeds_frame _ _ _ _ _ _ _ _ Hrest l Hnot). simpl. unfold upd.
      rewrite Nat.eqb_refl. simpl. auto.
Qed.

(** Every object the forward phase goes through holds the value returned
    by a call of its action, made at one of its positions. *)
Lemma succeeds_object_calls handling index els args m evs args' m' :
  succeeds handling index els args m evs args' m' ->
  forall l, In l (objects els) ->
  exists j inputs r c w w',
    nth_error els j = Some (Step l) /\
    In (EAct (index + j) inputs (Returned r)) evs /\
    __code__ (action (store m l)) = Some c /\
    await_if_awaitable handling
      (call (action (store m l)) handling
         (if truthy (co_varnames c) then inputs else []) w)
    = (Returned r, w') /\
    result (store m' l) = r /\
    compensation_args (store m' l) = Some (normalize r).
Proof.
  induction 1 as [index args m|index v rest args m evs args' m' Hrest IH
                 |index f rest args m evs args' m' Hrest IH
                 |index l0 rest args m r w evs args' m' Hact Hrest IH];
    intros l Hin; simpl in Hin.
  - contradiction.
  - destruct (IH l Hin) as (j & inputs & r & c & w & w' & Hnth & Hev & Hrest').
    exists (S j), inputs, r, c, w, w'. rewrite Nat.add_succ_r. auto.
  - destruct (IH l Hin) as (j & inputs & r & c & w & w' & Hnth & Hev & Hrest').
    exists (S j), inputs, r, c, w, w'. rewrite Nat.add_succ_r. auto.
  - destruct (in_dec Nat.eq_dec l (objects rest)) as [Hlater|Hnot].
    + destruct (IH l Hlater) as (j & inputs & r' & c & w0 & w' & Hnth & Hev & Hcode & Hcall & Hres).
      assert (Hsame : action (upd (store m) l0 (set_outcome (store m l0) (normalize r) r) l)
                      = action (store m l)).
      { unfold upd. destruct (Nat.eqb l l0) eqn:E; [|reflexivity].
        apply Nat.eqb_eq in E. now subst. }
      simpl in Hcode, Hcall. rewrite Hsame in Hcode, Hcall.
      exists (S j), inputs, r', c, w0, w'. rewrite Nat.add_succ_r. simpl.
      split; [exact Hnth|]. split; [now right|]. auto.
    + destruct Hin as [->|Hin]; [|contradiction].
      destruct (act_returned_calls _ _ _ _ _ _ Hact (ex_intro _ r eq_refl))
        as (c & Hcode & Hcall).
      exists 0, (elements args), r, c, (world m), w. rewrite Nat.add_0_r.
      split; [reflexivity|]. split; [now left|].
      split; [exact Hcode|]. split; [exact Hcall|].
      rewrite (succeeds_frame _ _ _ _ _ _ _ _ Hrest l Hnot). simpl. unfold upd.
      rewrite Nat.eqb_refl. simpl. auto.
Qed.

Lemma compensated_In_inv (evs : list event) (j : nat) :
  In j (compensated evs) -> exists o, In (ECompensate j o) evs.
Proof.
  induction evs as [|[i inp o|j' o|j' o] evs IH]; simpl; intros H.
  - contradiction.
  - destruct (IH H) as [o' Ho]. eauto.
  - destruct H as [->|H]; [eauto|]. destruct (IH H) as [o' Ho]. eauto.
  - destruct (IH H) as [o' Ho]. eauto.
Qed.

Lemma nth_error_objects (els : list element) (i : nat) (l : loc) :
  nth_error els i = Some (Step l) -> In l (objects els).
Proof.
  intros H. apply objects_In. eapply nth_error_In; eauto.
Qed.

(** ** Properties of the engine *)

(** C1, as amended. When the actions of steps [0..k-1] all return, the
    action of step [k] raises an instance of [Exception], and no
    compensation raises anything else than an instance of [Exception],
    [compensate] is called on exactly the steps [k-1, k-2, ..., 0], in that
    order: never on step [k] nor on a later one. Each of these calls is a
    call of [compensate] on the step object, made while the exception of
    the action is being handled; when the compensation is a function, it is
    a call of that function, on the elements of [compensation_args] or on
    nothing. *)
Theorem compensations_run_in_reverse_order
    (self : Saga) (handling : option exn) (m : machine)
    (k : nat) (inputs : list value) (exc : exn) :
  let run := execute self handling m in
  let evs := events_since (log m) (log (snd run)) in
  (forall i, i < k -> In (i, true) (acted evs)) ->
  In (EAct k inputs (Raised exc)) evs ->
  is_exception exc = true ->
  (forall j e, In (ECompensate j (Raised e)) evs -> is_exception e = true) ->
  compensated evs = rev (seq 0 k) /\
  (forall j, In j (compensated evs) -> j < k) /\
  (forall j, j < k ->
     exists l o w w',
       nth_error (steps self) j = Some (Step l) /\
       In (ECompensate j o) evs /\
       compensate (store (snd run) l) (Some exc) w = (o, w') /\
       (forall c, __code__ (compensation (store (snd run) l)) = Some c ->
          exists seq,
            compensation_args (store (snd run) l) = Some seq /\
            await_if_awaitable (Some exc)
              (call (compensation (store (snd run) l)) (Some exc)
                 (if truthy (co_varnames c) then elements seq else []) w)
            = (o, w'))).
Proof.
  cbv zeta. intros Hok Hfail Hexc Hcomp_exc.
  destruct (execute_shape self handling m)
    as [(args' & Hs & _)
       |(pre & l & post & evs0 & args_k & m_k & exc' & w & added &
         Hsteps & Hs & _ & Hevs & Hact & Hstore & Hcomp_ev & Hfor_ev & Hcases)].
  { destruct (succeeds_event_position _ _ _ _ _ _ _ _ Hs _ _ _ Hfail) as (_ & _ & Hb).
    discriminate. }
  destruct (failed_run_events _ _ _ _ _ _ _ _ added (length pre) (elements args_k) exc' Hs Hact)
    as (Hraised & _ & Hin_comp & Hin_for).
  rewrite <- Hevs in Hraised, Hin_comp, Hin_for.
  destruct (Hraised _ _ _ Hfail) as (Hk & Hinputs & Hsame). subst k inputs exc'.
  pose proof (acted_failed_run evs0 added (length pre) (elements args_k) exc pre
                (succeeds_acted _ _ _ _ _ _ _ _ Hs) Hact) as Hacted.
  rewrite <- Hevs in Hacted.
  assert (Hpre : forall i, i < length pre ->
                   is_step_at self i = true /\ In i (positions 0 pre)).
  { intros i Hi. specialize (Hok i Hi). rewrite Hacted in Hok.
    apply in_app_or in Hok. destruct Hok as [Hin|Hin].
    - apply in_map_iff in Hin. destruct Hin as (i' & Heq & Hpos). inversion Heq; subst i'.
      split; [|exact Hpos]. eapply positions_step_at; eauto.
    - destruct Hin as [Heq|[]]. discriminate. }
  destruct Hcases as [(Hno & _)|(_ & o & Hrun & Hout)]; [congruence|].
  destruct o as [d|escaped].
  2:{ exfalso. destruct Hout as (_ & Hesc & j & [Hin|Hin]).
      - apply Hin_comp in Hin. rewrite (Hcomp_exc _ _ Hin) in Hesc. discriminate.
      - destruct (Hfor_ev _ _ Hin) as (Hj & f & method & w1 & w2 & Hnth & _).
        destruct (Hpre j Hj) as (Hstep & _). unfold is_step_at in Hstep.
        rewrite Hnth in Hstep. discriminate. }
  destruct Hout as (_ & _ & Hcmp & _).
  assert (Hgoal : compensated (events_since (log m) (log (snd (execute self handling m))))
                  = rev (seq 0 (length pre))).
  { rewrite Hevs, compensated_app. simpl.
    rewrite (succeeds_compensated _ _ _ _ _ _ _ _ Hs), Hcmp. simpl.
    rewrite filter_all; [apply range_down_rev_seq|].
    intros i Hi. apply range_down_lt in Hi. now apply Hpre. }
  split; [exact Hgoal|]. split.
  { intros j Hj. rewrite Hgoal in Hj. apply in_rev, in_seq in Hj. lia. }
  intros j Hj.
  assert (Hin : In j (compensated (events_since (log m) (log (snd (execute self handling m)))))).
  { rewrite Hgoal. apply in_rev. rewrite rev_involutive. apply in_seq. lia. }
  apply compensated_In_inv in Hin. destruct Hin as (o & Hin).
  destruct (Hcomp_ev j o (proj1 (Hin_comp j o) Hin)) as (_ & l' & w1 & w2 & Hnth & Hc).
  exists l', o, w1, w2. rewrite Hstore.
  split; [exact Hnth|]. split; [exact Hin|]. split; [exact Hc|].
  intros c Hcode.
  assert (Hl' : In l' (objects pre)).
  { rewrite Hsteps, nth_error_app1 in Hnth by exact Hj. eapply nth_error_objects; eauto. }
  destruct (succeeds_object_fields _ _ _ _ _ _ _ _ Hs l' Hl')
    as (i & given & r & _ & _ & _ & Hargs).
  exists (normalize r). split; [exact Hargs|].
  exact (compensate_calls _ _ _ _ _ _ _ Hc Hcode Hargs).
Qed.

(** C2, as amended. When an action raises an instance of [Exception] and no
    compensation raises anything else than an instance of [Exception],
    [execute] raises a [SagaError], and does so from the state the
    compensation phase ended in, after [_run_compensations] went through
    every position below the failing one. The error holds the position of
    the failing step, the exception of the action with its formatted trace,
    and the mapping [_run_compensations] returned, which has every
    compensation that raised and none that returned. *)
Theorem failed_run_raises_SagaError
    (self : Saga) (handling : option exn) (m : machine)
    (k : nat) (inputs : list value) (exc : exn) :
  let run := execute self handling m in
  let evs := events_since (log m) (log (snd run)) in
  In (EAct k inputs (Raised exc)) evs ->
  is_exception exc = true ->
  (forall j e, In (ECompensate j (Raised e)) evs \/ In (EForeign j (Raised e)) evs ->
               is_exception e = true) ->
  exists d m_fail before,
    fst run = Raised (Saga_error {| failed_step_index := k;
                                    action_exception := exc;
                                    action_traceback := format_exc (Some exc);
                                    compensation_exception_tracebacks := d |}) /\
    log m_fail = before ++ [EAct k inputs (Raised exc)] /\
    _run_compensations self (Some exc) k m_fail = (Returned d, snd run) /\
    compensated evs = filter (is_step_at self) (rev (seq 0 k)) /\
    (forall j e, In (ECompensate j (Raised e)) evs ->
                 dict_get d j = Some (e, stored_trace e)) /\
    (forall j v, In (ECompensate j (Returned v)) evs -> dict_get d j = None).
Proof.
  cbv zeta. intros Hin Hexc Hcomp_exc.
  destruct (execute_shape self handling m)
    as [(args' & Hs & _)
       |(pre & l & post & evs0 & args_k & m_k & exc' & w & added &
         Hsteps & Hs & _ & Hevs & Hact & Hstore & Hcomp_ev & Hfor_ev & Hcases)].
  { destruct (succeeds_event_position _ _ _ _ _ _ _ _ Hs _ _ _ Hin) as (_ & _ & Hb).
    discriminate. }
  destruct (failed_run_events _ _ _ _ _ _ _ _ added (length pre) (elements args_k) exc' Hs Hact)
    as (Hraised & _ & Hin_comp & Hin_for).
  rewrite <- Hevs in Hraised, Hin_comp, Hin_for.
  destruct (Hraised _ _ _ Hin) as (Hk & Hinputs & Hsame). subst k inputs exc'.
  destruct Hcases as [(Hno & _)|(_ & o & Hrun & Hout)]; [congruence|].
  destruct o as [d|escaped].
  2:{ exfalso. destruct Hout as (_ & Hesc & j & Hj).
      rewrite (Hcomp_exc j escaped) in Hesc; [discriminate|].
      destruct Hj as [Hj|Hj]; [left; now apply Hin_comp | right; now apply Hin_for]. }
  destruct Hout as (Hfst & _ & Hcmp & Hrec & Hret & _).
  exists d,
    {| world := w;
       store := store m_k;
       log := log m_k ++ [EAct (length pre) (elements args_k) (Raised exc)] |},
    (log m_k).
  split; [exact Hfst|]. split; [reflexivity|]. split; [exact Hrun|].
  split; [|split].
  - rewrite Hevs, compensated_app. simpl.
    rewrite (succeeds_compensated _ _ _ _ _ _ _ _ Hs), Hcmp. simpl.
    now rewrite range_down_rev_seq.
  - intros j e Hj. apply Hrec. now apply Hin_comp.
  - intros j v Hj. apply (Hret j v). now apply Hin_comp.
Qed.

(** C4. The result of an action that returns is normalized: [None] gives no
    inputs, a list or tuple gives its elements, any other value gives
    itself alone. The normalized result is what the next call to [act]
    receives, the first call receiving nothing, and it is the
    [compensation_args] of the step. *)
Theorem results_are_normalized_and_threaded
    (self : Saga) (handling : option exn) (m : machine) :
  let run := execute self handling m in
  let evs := events_since (log m) (log (snd run)) in
  (forall r, elements (normalize r)
             = match r with
               | VNone => []
               | VList xs => xs
               | VTuple xs => xs
               | other => [other]
               end) /\
  normalize VNone = AsList [] /\
  threaded [] evs /\
  (forall i inputs r l,
     In (EAct i inputs (Returned r)) evs ->
     nth_error (steps self) i = Some (Step l) ->
     compensation_args (store (snd run) l) = Some (normalize (result (store (snd run) l))) /\
     (NoDup (objects (steps self)) ->
      compensation_args (store (snd run) l) = Some (normalize r))).
Proof.
  cbv zeta.
  split; [intros r; destruct r; reflexivity|]. split; [reflexivity|].
  destruct (execute_shape self handling m)
    as [(args' & Hs & _)
       |(pre & l0 & post & evs0 & args_k & m_k & exc & w & added &
         Hsteps & Hs & _ & Hevs & Hact & Hstore & _)].
  - split.
    + rewrite <- (app_nil_r (events_since _ _)).
      apply (succeeds_threaded _ _ _ _ _ _ _ _ Hs). exact I.
    + intros i inputs r l Hin Hnth. split.
      * destruct (succeeds_object_fields _ _ _ _ _ _ _ _ Hs l (nth_error_objects _ _ _ Hnth))
          as (j & inputs' & r' & _ & _ & Hres & Hargs).
        now rewrite Hargs, Hres.
      * intros Hnd.
        apply (succeeds_fields_of_event _ _ _ _ _ _ _ _ Hs Hnd i inputs r l Hin).
        now rewrite Nat.sub_0_r.
  - split.
    + rewrite Hevs. apply (succeeds_threaded _ _ _ _ _ _ _ _ Hs). simpl. auto.
    + intros i inputs r l Hin Hnth. rewrite Hstore.
      assert (Hin0 : In (EAct i inputs (Returned r)) evs0).
      { rewrite Hevs in Hin. apply in_app_or in Hin. destruct Hin as [Hin|[Heq|Hin]].
        - exact Hin.
        - discriminate.
        - apply acted_In in Hin. rewrite Hact in Hin. contradiction. }
      destruct (succeeds_event_position _ _ _ _ _ _ _ _ Hs _ _ _ Hin0)
        as (_ & (l' & Hpre) & _).
      rewrite Nat.sub_0_r in Hpre.
      assert (Hl : l' = l).
      { assert (Hlt : i < length pre) by (apply nth_error_Some; congruence).
        rewrite Hsteps, nth_error_app1 in Hnth by exact Hlt. congruence. }
      subst l'. split.
      * destruct (succeeds_object_fields _ _ _ _ _ _ _ _ Hs l (nth_error_objects _ _ _ Hpre))
          as (j & inputs' & r' & _ & _ & Hres & Hargs).
        now rewrite Hargs, Hres.
      * intros Hnd. rewrite Hsteps, objects_app in Hnd. apply NoDup_app_remove_r in Hnd.
        apply (succeeds_fields_of_event _ _ _ _ _ _ _ _ Hs Hnd i inputs r l Hin0).
        now rewrite Nat.sub_0_r.
Qed.

(** C5, as amended. In a compensation phase in which no compensation raises
    anything else than an instance of [Exception], [_run_compensations]
    returns a mapping, and every step below the failed one has its
    [compensate] called, highest position first, whatever the outcomes;
    the call is a call of the compensation on [compensation_args], or on
    nothing, when the compensation is a function and the field is set. A
    compensation that raises is recorded with its exception under its
    position, and the steps below it are still compensated. A compensation
    that returns has no entry in the mapping. *)
Theorem compensation_failures_are_recorded
    (self : Saga) (handling : option exn) (k : nat) (m : machine) :
  let done := _run_compensations self handling k m in
  let evs := events_since (log m) (log (snd done)) in
  (forall j e, In (ECompensate j (Raised e)) evs \/ In (EForeign j (Raised e)) evs ->
               is_exception e = true) ->
  exists d,
    fst done = Returned d /\
    compensated evs = filter (is_step_at self) (rev (seq 0 k)) /\
    (forall j o, In (ECompensate j o) evs ->
       exists l w w',
         nth_error (steps self) j = Some (Step l) /\
         compensate (store m l) handling w = (o, w') /\
         (forall c seq,
            __code__ (compensation (store m l)) = Some c ->
            compensation_args (store m l) = Some seq ->
            await_if_awaitable handling
              (call (compensation (store m l)) handling
                 (if truthy (co_varnames c) then elements seq else []) w)
            = (o, w'))) /\
    (forall j e, In (ECompensate j (Raised e)) evs ->
       (exists t, dict_get d j = Some (e, t)) /\
       (forall i, i < j -> is_step_at self i = true -> exists o, In (ECompensate i o) evs)) /\
    (forall j v, In (ECompensate j (Returned v)) evs -> dict_get d j = None).
Proof.
  cbv zeta. intros Hexc.
  destruct (_run_compensations self handling k m) as [o m'] eqn:Hrun.
  destruct (run_compensations_spec _ _ _ _ _ _ Hrun)
    as (_ & added & Hlog & _ & Hcomp_ev & _ & Hout).
  simpl fst. simpl snd in *.
  assert (Hevs : events_since (log m) (log m') = added)
    by (rewrite Hlog; apply events_since_app).
  rewrite Hevs in *.
  destruct o as [d|escaped].
  2:{ exfalso. destruct Hout as (Hesc & j & Hj).
      rewrite (Hexc j escaped Hj) in Hesc. discriminate. }
  destruct Hout as (_ & Hcmp & Hraised & Hret & _).
  exists d. split; [reflexivity|].
  split; [now rewrite Hcmp, range_down_rev_seq|].
  split.
  { intros j o Hin. destruct (Hcomp_ev j o Hin) as (_ & l & w & w' & Hnth & Hc).
    exists l, w, w'. split; [exact Hnth|]. split; [exact Hc|].
    intros c seq Hcode Hseq. exact (compensate_calls _ _ _ _ _ _ _ Hc Hcode Hseq). }
  split; [|exact Hret].
  intros j e Hin. split; [exists (stored_trace e); now apply Hraised|].
  intros i Hlt Hstep. apply compensated_In_inv. rewrite Hcmp.
  apply compensated_In in Hin. rewrite Hcmp in Hin.
  apply filter_In in Hin. destruct Hin as [Hj _]. apply range_down_lt in Hj.
  apply filter_In. split; [apply range_down_lt; lia | exact Hstep].
Qed.


(** C7, as amended. After a run, a step object either has both fields set
    from one call of its action that returned in this run, [result] to the
    value the action returned and [compensation_args] to its normal form,
    or none of its calls returned in this run and both fields are as they
    were before the run: unset when they were unset. *)
Theorem fields_are_set_together_on_success
    (self : Saga) (handling : option exn) (m : machine) (l : loc) :
  let run := execute self handling m in
  let evs := events_since (log m) (log (snd run)) in
  (exists i inputs r c w w',
     nth_error (steps self) i = Some (Step l) /\
     In (EAct i inputs (Returned r)) evs /\
     __code__ (action (store m l)) = Some c /\
     await_if_awaitable handling
       (call (action (store m l)) handling
          (if truthy (co_varnames c) then inputs else []) w)
     = (Returned r, w') /\
     result (store (snd run) l) = r /\
     compensation_args (store (snd run) l) = Some (normalize r))
  \/
  ((forall i inputs r, nth_error (steps self) i = Some (Step l) ->
                       ~ In (EAct i inputs (Returned r)) evs) /\
   result (store (snd run) l) = result (store m l) /\
   compensation_args (store (snd run) l) = compensation_args (store m l) /\
   (result (store m l) = VNone -> compensation_args (store m l) = None ->
    result (store (snd run) l) = VNone /\ compensation_args (store (snd run) l) = None)).
Proof.
  cbv zeta.
  destruct (execute_shape self handling m)
    as [(args' & Hs & _)
       |(pre & l0 & post & evs0 & args_k & m_k & exc & w & added &
         Hsteps & Hs & _ & Hevs & Hact & Hstore & _)].
  - destruct (in_dec Nat.eq_dec l (objects (steps self))) as [Hin|Hnot].
    + left. destruct (succeeds_object_calls _ _ _ _ _ _ _ _ Hs l Hin)
        as (j & inputs & r & c & w & w' & Hnth & Hev & Hrest).
      exists j, inputs, r, c, w, w'. auto.
    + right. rewrite (succeeds_frame _ _ _ _ _ _ _ _ Hs l Hnot).
      split; [|auto]. intros i inputs r Hnth _. apply Hnot.
      eapply nth_error_objects; eauto.
  - rewrite Hstore.
    destruct (in_dec Nat.eq_dec l (objects pre)) as [Hin|Hnot].
    + left. destruct (succeeds_object_calls _ _ _ _ _ _ _ _ Hs l Hin)
        as (j & inputs & r & c & w0 & w' & Hnth & Hev & Hrest).
      exists j, inputs, r, c, w0, w'. simpl in Hev.
      assert (Hlt : j < length pre) by (apply nth_error_Some; congruence).
      split; [rewrite Hsteps, nth_error_app1 by exact Hlt; exact Hnth|].
      split; [rewrite Hevs; apply in_or_app; now left | auto].
    + right. rewrite (succeeds_frame _ _ _ _ _ _ _ _ Hs l Hnot).
      split; [|auto]. intros i inputs r Hnth Hev. apply Hnot.
      rewrite Hevs in Hev. apply in_app_or in Hev. destruct Hev as [Hev|[Heq|Hev]].
      * destruct (succeeds_event_position _ _ _ _ _ _ _ _ Hs _ _ _ Hev)
          as (_ & (l' & Hpre) & _).
        rewrite Nat.sub_0_r in Hpre.
        assert (Hlt : i < length pre) by (apply nth_error_Some; congruence).
        rewrite Hsteps, nth_error_app1 in Hnth by exact Hlt.
        eapply nth_error_objects. exact Hnth.
      * discriminate.
      * apply acted_In in Hev. rewrite Hact in Hev. contradiction.
Qed.

(** ** What [act] and the forward phase do with their inputs *)

(** [act] gives its inputs to the action exactly when [co_varnames] of the
    action is not empty. *)
Lemma act_passes_inputs_by_varnames (self : Action) (handling : option exn)
    (args : list value) (w : World) (c : code) :
  __code__ (action self) = Some c ->
  act self handling args w
  = await_if_awaitable handling
      (call (action self) handling
         (match co_params c ++ co_locals c with [] => [] | _ :: _ => args end) w).
Proof.
  intros Hc. unfold act. rewrite Hc. unfold co_varnames, truthy.
  destruct (co_params c ++ co_locals c); reflexivity.
Qed.

(** In the forward phase an element that is not an [Action] is passed
    over. *)
Lemma execute_loop_skips_non_steps (self : Saga) (handling : option exn)
    (index : nat) (v : value) (rest : list element) (args : sequence) (m : machine) :
  execute_loop self handling index (NotStep v :: rest) args m
  = execute_loop self handling (S index) rest args m.
Proof. reflexivity. Qed.

Lemma execute_loop_skips_other_objects (self : Saga) (handling : option exn)
    (index : nat) (o : foreign) (rest : list element) (args : sequence) (m : machine) :
  execute_loop self handling index (Foreign o :: rest) args m
  = execute_loop self handling (S index) rest args m.
Proof. reflexivity. Qed.

Lemma only_non_steps_completes (self : Saga) (handling : option exn) (m : machine) :
  objects (steps self) = [] -> execute self handling m = (Returned self, m).
Proof.
  unfold execute. generalize 0, (AsList []).
  induction (steps self) as [|[l|v|o] els IH]; intros index args Hobj; simpl in *.
  - reflexivity.
  - discriminate.
  - auto.
  - auto.
Qed.
(** ** Purity of the rendering *)

Definition leaves_self {A : Type} (f : method A) : Prop :=
  forall self, snd (f self) = self.

Lemma ret_leaves_self {A : Type} (a : A) : leaves_self (ret a).
Proof. intros self. reflexivity. Qed.

Lemma attr_leaves_self {A : Type} (field : SagaError -> A) : leaves_self (attr field).
Proof. intros self. reflexivity. Qed.

Lemma bind_leaves_self {A B : Type} (f : method A) (k : A -> method B) :
  leaves_self f -> (forall a, leaves_self (k a)) -> leaves_self (bind f k).
Proof.
  intros Hf Hk self. unfold bind. specialize (Hf self).
  destruct (f self) as [a self']. simpl in Hf. subst self'. apply Hk.
Qed.

Lemma comprehension_leaves_self {A B : Type} (f : A -> method B) (xs : list A) :
  (forall x, leaves_self (f x)) -> leaves_self (comprehension f xs).
Proof.
  intros Hf. induction xs as [|x xs IH]; simpl.
  - apply ret_leaves_self.
  - apply bind_leaves_self; [apply Hf|]. intros b.
    apply bind_leaves_self; [exact IH|]. intros bs. apply ret_leaves_self.
Qed.

Lemma format_traceback_indentation_leaves_self (traceback_str : str) (indent : nat) :
  leaves_self (format_traceback_indentation traceback_str indent).
Proof.
  unfold format_traceback_indentation.
  destruct (contains_char 10%N traceback_str); apply ret_leaves_self.
Qed.

Create HintDb rendering.
#[local] Hint Resolve ret_leaves_self attr_leaves_self
  format_traceback_indentation_leaves_self : rendering.

Ltac leaves_self_step :=
  first [ apply bind_leaves_self; [|intros ?]
        | apply comprehension_leaves_self; intros [? [? ?]]
        | solve [auto with rendering] ].

Lemma str_leaves_self : leaves_self __str__.
Proof.
  unfold __str__.
  do 5 leaves_self_step; auto with rendering.
  match goal with |- context [existsb ?f ?l] => destruct (existsb f l) end;
    repeat leaves_self_step.
Qed.

(** C9. Rendering a failure leaves every field of it as it was, and
    rendering it a second time gives the same text. *)
Theorem rendering_is_pure (failure : SagaError) :
  let (first, after_first) := __str__ failure in
  let (second, after_second) := __str__ after_first in
  after_first = failure /\ after_second = failure /\ second = first.
Proof.
  pose proof (str_leaves_self failure) as H1.
  destruct (__str__ failure) as [first after_first] eqn:E1. simpl in H1. subst after_first.
  rewrite E1. auto.
Qed.

End Engine.

Arguments Plain {World} v.
Arguments Awaitable {World} resume.
Arguments def {World} stack_text line name c body.
Arguments new_Action {World} action_ compensation_.
Arguments Build_machine {World} world store log.
Arguments world {World} m.
Arguments store {World} m l.
Arguments log {World} m.
Arguments action {World} a.
Arguments compensation {World} a.
Arguments compensation_args {World} a.
Arguments result {World} a.
Arguments call {World} c handling args w.
Arguments Build_foreign {World} foreign_class foreign_compensate.
Arguments foreign_class {World} f.
Arguments foreign_compensate {World} f.
Arguments Step {World} l.
Arguments NotStep {World} v.
Arguments Foreign {World} o.
Arguments Build_Saga {World} steps.
Arguments steps {World} s.
Arguments Build_UserCommandOrchestrator {World} orchestrator_steps next_loc.
Arguments orchestrator_steps {World} u.
Arguments next_loc {World} u.
Arguments objects {World} els.
Arguments positions {World} index els.
Arguments is_step_at {World} self j.
Arguments add_step {World} self action_ compensation_ s.
Arguments act {World} stack_text self handling args w.
Arguments compensate {World} stack_text self handling w.
Arguments _run_compensations {World} stack_text self handling last_action_index m.
Arguments execute {World} stack_text self handling m.

(** ** The order saga *)

(** The saga of [run_saga] and the scenarios built on it. The world is the
    journal of the requests the services received. *)
Module Scenario.

Definition World : Type := list string.

Definition quote : str := [34%N].

(** Frame lines for an exception raised at a line of [saga.py]. *)
Definition saga_frames (line : nat) : str :=
  lit "  File " ++ quote ++ lit "saga.py" ++ quote ++ lit ", line " ++ str_of_nat line ++ nl.

(** The text printed for one exception raised in the module of the
    services. *)
Definition service_block (name msg : string) : str :=
  lit "Traceback (most recent call last):" ++ nl
  ++ lit "  File " ++ quote ++ lit "services.py" ++ quote ++ nl
  ++ lit name ++ lit ": " ++ lit msg ++ nl.

(** [raise Name(msg)] for a class [Name] derived from [Exception]: the
    exception being handled becomes the context. *)
Definition raise_ (name msg : string) (handling : option exn) : exn :=
  {| type_name := lit name;
     message := lit msg;
     trace_block := service_block name msg;
     cause := None;
     context := handling;
     suppress_context := false;
     is_exception := true |}.

(** [raise Name(msg) from None]. *)
Definition raise_from_None (name msg : string) (handling : option exn) : exn :=
  {| type_name := lit name;
     message := lit msg;
     trace_block := service_block name msg;
     cause := None;
     context := handling;
     suppress_context := true;
     is_exception := true |}.

(** [raise KeyboardInterrupt(msg)]: a [BaseException] that is not an
    [Exception]. *)
Definition interrupt (msg : string) (handling : option exn) : exn :=
  {| type_name := lit "KeyboardInterrupt";
     message := lit msg;
     trace_block := service_block "KeyboardInterrupt" msg;
     cause := None;
     context := handling;
     suppress_context := false;
     is_exception := false |}.

Definition order : value := VDict [(VStr (lit "order_id"), VInt 1)].
Definition payment : value := VDict [(VStr (lit "payment_id"), VInt 2)].
Definition inventory : value := VDict [(VStr (lit "inventory_id"), VInt 3)].

(** An [async def]: calling it gives a coroutine, awaiting it sends the
    request and gives the response. *)
Definition service (line : nat) (name : string) (params locals : list string)
    (respond : option exn -> outcome exn value) : callable World :=
  def saga_frames line (lit name) {| co_params := map lit params; co_locals := map lit locals |}
    (fun _ _ w => (Returned (Awaitable (fun handling w' => (respond handling, w' ++ [name]))), w)).

(** The actions of [saga.py]: no parameter, two local variables. *)
Definition create_order : callable World :=
  service 57 "create_order" [] ["client"; "response"]%string (fun _ => Returned order).
Definition validate_payment : callable World :=
  service 57 "validate_payment" [] ["client"; "response"]%string (fun _ => Returned payment).

(** The compensations of [saga.py]: one parameter, two local variables. *)
Definition cancel_order : callable World :=
  service 63 "cancel_order" ["order"]%string ["client"; "response"]%string (fun _ => Returned VNone).
Definition cancel_payment : callable World :=
  service 63 "cancel_payment" ["payment"]%string ["client"; "response"]%string (fun _ => Returned VNone).
Definition rollback_inventory : callable World :=
  service 63 "rollback_inventory" ["inventory"]%string ["client"; "response"]%string (fun _ => Returned VNone).
Definition rollback_shipping : callable World :=
  service 63 "rollback_shipping" ["shipping"]%string ["client"; "response"]%string (fun _ => Returned VNone).

(** Actions that take the result of the step before them. *)
Definition pay_for : callable World :=
  service 57 "pay_for" ["order"]%string ["client"; "response"]%string (fun _ => Returned payment).
Definition reserve_for : callable World :=
  service 57 "reserve_for" ["payment"]%string ["client"; "response"]%string
    (fun handling => Raised (raise_ "ValueError" "out of stock" handling)).
Definition ship_for : callable World :=
  service 57 "ship_for" ["inventory"]%string ["client"; "response"]%string (fun _ => Returned VNone).

(** [async def refuse(): raise ValueError('out of stock')]. *)
Definition refuse : callable World :=
  service 57 "refuse" [] [] (fun handling => Raised (raise_ "ValueError" "out of stock" handling)).

(** Compensations that fail: plainly, and with [from None]. *)
Definition cancel_order_fails : callable World :=
  service 63 "cancel_order" ["order"]%string ["client"; "response"]%string
    (fun handling => Raised (raise_ "RuntimeError" "refund refused" handling)).
Definition cancel_order_fails_from_None : callable World :=
  service 63 "cancel_order" ["order"]%string ["client"; "response"]%string
    (fun handling => Raised (raise_from_None "RuntimeError" "refund refused" handling)).

(** A compensation with no parameter and one local variable. *)
Definition release_all : callable World :=
  service 63 "release_all" [] ["client"]%string (fun _ => Returned VNone).

(** An action and a compensation that are interrupted while they wait for
    the service. *)
Definition reserve_interrupted : callable World :=
  service 57 "reserve_for" ["payment"]%string ["client"; "response"]%string
    (fun handling => Raised (interrupt "stopped" handling)).
Definition cancel_payment_interrupted : callable World :=
  service 63 "cancel_payment" ["payment"]%string ["client"; "response"]%string
    (fun handling => Raised (interrupt "stopped" handling)).

(** An action that the service accepts once: a second request for the same
    order is refused. *)
Definition create_order_once : callable World :=
  def saga_frames 57 (lit "create_order_once")
    {| co_params := []; co_locals := map lit ["client"; "response"]%string |}
    (fun _ _ w =>
       (Returned (Awaitable (fun handling w' =>
          if existsb (String.eqb "create_order_once") w' then
            (Raised (raise_ "RuntimeError" "order exists" handling),
             w' ++ ["create_order_once"%string])
          else (Returned order, w' ++ ["create_order_once"%string]))), w)).

(** An object of a class [Refund] that is not an [Action] and has a
    method [async def compensate(self)], and a bare [object()]. *)
Definition refund_compensate (handling : option exn) (w : World)
    : outcome exn (returned World) * World :=
  (Returned (Awaitable (fun _ w' => (Returned VNone, w' ++ ["refund"%string]))), w).
Definition refund : foreign World :=
  {| foreign_class := lit "Refund"; foreign_compensate := Some refund_compensate |}.
Definition bare_object : foreign World :=
  {| foreign_class := lit "object"; foreign_compensate := None |}.

Definition empty_store : loc -> Action World :=
  fun _ => new_Action create_order cancel_order.

(** [UserCommandOrchestrator()] followed by calls to [add_step]. *)
Fixpoint build (pairs : list (callable World * callable World))
    (o : UserCommandOrchestrator World) (s : loc -> Action World)
    : UserCommandOrchestrator World * (loc -> Action World) :=
  match pairs with
  | [] => (o, s)
  | (a, c) :: pairs' => let (o', s') := add_step o a c s in build pairs' o' s'
  end.

Definition orchestrate (pairs : list (callable World * callable World))
    : Saga World * machine World :=
  let (o, s) := build pairs {| orchestrator_steps := []; next_loc := 0 |} empty_store in
  ({| steps := orchestrator_steps o |}, {| world := []; store := s; log := [] |}).

(** Four steps, the third of which fails. *)
Definition failing_third : Saga World * machine World :=
  orchestrate [(create_order, cancel_order); (pay_for, cancel_payment);
               (reserve_for, rollback_inventory); (ship_for, rollback_shipping)].

(** The same, where the compensation of the first step fails too. *)
Definition failing_third_and_first_undo : Saga World * machine World :=
  orchestrate [(create_order, cancel_order_fails); (pay_for, cancel_payment);
               (reserve_for, rollback_inventory); (ship_for, rollback_shipping)].

(** The same, where that compensation raises with [from None]. *)
Definition failing_third_and_first_undo_from_None : Saga World * machine World :=
  orchestrate [(create_order, cancel_order_fails_from_None); (pay_for, cancel_payment);
               (reserve_for, rollback_inventory); (ship_for, rollback_shipping)].

(** Four steps, the third of which is interrupted. *)
Definition interrupted_third : Saga World * machine World :=
  orchestrate [(create_order, cancel_order); (pay_for, cancel_payment);
               (reserve_interrupted, rollback_inventory); (ship_for, rollback_shipping)].

(** Four steps, the third of which fails; the compensation of the second
    is interrupted. *)
Definition interrupted_undo : Saga World * machine World :=
  orchestrate [(create_order, cancel_order); (pay_for, cancel_payment_interrupted);
               (reserve_for, rollback_inventory); (ship_for, rollback_shipping)].

(** Two steps that succeed. *)
Definition two_steps : Saga World * machine World :=
  orchestrate [(create_order, cancel_order); (pay_for, cancel_payment)].

(** Two steps that succeed, the second of which cannot be compensated
    because it is interrupted. *)
Definition two_steps_second_undo_interrupted : Saga World * machine World :=
  orchestrate [(create_order, cancel_order); (pay_for, cancel_payment_interrupted)].

(** One step whose action is accepted once. *)
Definition one_step_once : Saga World * machine World :=
  orchestrate [(create_order_once, cancel_order)].

(** The first two steps of [run_saga]. *)
Definition run_saga : Saga World * machine World :=
  orchestrate [(create_order, cancel_order); (validate_payment, cancel_payment)].

(** [Saga([None, Action(refuse, release_all)])]. *)
Definition with_None : Saga World * machine World :=
  ({| steps := [NotStep VNone; Step 0] |},
   {| world := []; store := fun _ => new_Action refuse release_all; log := [] |}).

(** [Saga([Refund(), object(), Action(refuse, release_all)])]. *)
Definition with_other_objects : Saga World * machine World :=
  ({| steps := [Foreign refund; Foreign bare_object; Step 0] |},
   {| world := []; store := fun _ => new_Action refuse release_all; log := [] |}).

(** [Saga([None, (1, 2)])]. *)
Definition no_step_at_all : Saga World * machine World :=
  ({| steps := [NotStep VNone; NotStep (VTuple [VInt 1; VInt 2])] |},
   {| world := []; store := empty_store; log := [] |}).

Definition run (sm : Saga World * machine World) : outcome thrown (Saga World) * machine World :=
  execute saga_frames (fst sm) None (snd sm).

Definition events (sm : Saga World * machine World) : list event :=
  events_since (log (snd sm)) (log (snd (run sm))).

End Scenario.

(** ** The properties on the order saga *)

Import Scenario.

(** The text of the failure raised when the third of four steps fails. *)
Example rendering_of_a_failure :
  match fst (run failing_third) with
  | Raised (Saga_error failure) =>
      fst (__str__ failure)
      = header_msg ++ nl ++ nl
        ++ lit "Transaction failed at step index 2: An unexpected ValueError occurred, triggering the compensation process."
        ++ nl ++ lit "  " ++ [9550%N] ++ lit "Traceback (most recent call last):"
        ++ nl ++ lit "  " ++ [9550%N] ++ lit "  File " ++ quote ++ lit "services.py" ++ quote
        ++ nl ++ lit "  " ++ [9550%N] ++ lit "ValueError: out of stock"
  | _ => False
  end.
Proof. vm_compute. reflexivity. Qed.

(** The services see the requests in order, and the undo requests in
    reverse. *)
Example journal_of_a_failed_run :
  world (snd (run failing_third))
  = ["create_order"; "pay_for"; "reserve_for"; "cancel_payment"; "cancel_order"]%string.
Proof. vm_compute. reflexivity. Qed.

(** [ValueError('out of stock')], raised while nothing is being handled. *)
Definition out_of_stock : exn := raise_ "ValueError" "out of stock" None.

(** The third of four steps fails: the second, then the first, are
    compensated, each by a call of its compensation on the result of its
    action, and the services receive the two requests in that order. *)
Lemma compensations_run_in_reverse_order_witness :
  (compensated (events failing_third) = rev (seq 0 2) /\
   (forall j, In j (compensated (events failing_third)) -> j < 2) /\
   (forall j, j < 2 ->
      exists l o w w',
        nth_error (steps (fst failing_third)) j = Some (Step l) /\
        In (ECompensate j o) (events failing_third) /\
        compensate saga_frames (store (snd (run failing_third)) l) (Some out_of_stock) w
        = (o, w') /\
        (forall c, __code__ _ (compensation (store (snd (run failing_third)) l)) = Some c ->
           exists seq,
             compensation_args (store (snd (run failing_third)) l) = Some seq /\
             await_if_awaitable _ (Some out_of_stock)
               (call (compensation (store (snd (run failing_third)) l)) (Some out_of_stock)
                  (if truthy (co_varnames c) then elements seq else []) w)
             = (o, w')))) /\
  events failing_third
  = [EAct 0 [] (Returned order); EAct 1 [order] (Returned payment);
     EAct 2 [payment] (Raised out_of_stock);
     ECompensate 1 (Returned VNone); ECompensate 0 (Returned VNone)] /\
  call cancel_payment (Some out_of_stock) [payment] ["create_order"; "pay_for"; "reserve_for"]%string
  = (Returned (Awaitable (fun handling w' => (Returned VNone, w' ++ ["cancel_payment"%string]))),
     ["create_order"; "pay_for"; "reserve_for"]%string) /\
  world (snd (run failing_third))
  = ["create_order"; "pay_for"; "reserve_for"; "cancel_payment"; "cancel_order"]%string.
Proof.
  split; [|split; [|split]]; [|vm_compute; reflexivity..].
  apply (compensations_run_in_reverse_order World saga_frames
           (fst failing_third) None (snd failing_third) 2 [payment] out_of_stock).
  - intros i Hi. vm_compute. destruct i as [|[|i]]; [now left | right; now left | lia].
  - vm_compute. right. right. now left.
  - reflexivity.
  - intros j e H. vm_compute in H.
    destruct H as [H|[H|[H|[H|[H|[]]]]]]; discriminate.
Defined.

(** An action that is interrupted is not compensated for, and neither are
    the steps below a compensation that is interrupted: [except Exception]
    does not catch [KeyboardInterrupt]. *)
Lemma compensations_skipped_after_interrupt :
  ((forall i, i < 2 -> In (i, true) (acted (events interrupted_third))) /\
   In (2, false) (acted (events interrupted_third)) /\
   compensated (events interrupted_third) = [] /\
   compensated (events interrupted_third) <> rev (seq 0 2) /\
   world (snd (run interrupted_third)) = ["create_order"; "pay_for"; "reserve_for"]%string)
  /\
  ((forall i, i < 2 -> In (i, true) (acted (events interrupted_undo))) /\
   In (2, false) (acted (events interrupted_undo)) /\
   compensated (events interrupted_undo) = [1] /\
   compensated (events interrupted_undo) <> rev (seq 0 2) /\
   world (snd (run interrupted_undo))
   = ["create_order"; "pay_for"; "reserve_for"; "cancel_payment"]%string).
Proof.
  split.
  - split; [|split; [|split; [|split]]].
    + intros i Hi. vm_compute. destruct i as [|[|i]]; [now left | right; now left | lia].
    + vm_compute. right. right. now left.
    + vm_compute. reflexivity.
    + vm_compute. discriminate.
    + vm_compute. reflexivity.
  - split; [|split; [|split; [|split]]].
    + intros i Hi. vm_compute. destruct i as [|[|i]]; [now left | right; now left | lia].
    + vm_compute. right. right. now left.
    + vm_compute. reflexivity.
    + vm_compute. discriminate.
    + vm_compute. reflexivity.
Qed.

(** [RuntimeError('refund refused')], raised by a compensation while the
    failure of the action is being handled. *)
Definition refund_refused : exn := raise_ "RuntimeError" "refund refused" (Some out_of_stock).

(** The failure raised when the third step fails and the compensation of
    the first fails too: its mapping has the one entry of that
    compensation. *)
Lemma failed_run_raises_SagaError_witness :
  (exists d m_fail before,
     fst (run failing_third_and_first_undo)
     = Raised (Saga_error {| failed_step_index := 2;
                             action_exception := out_of_stock;
                             action_traceback := format_exc (Some out_of_stock);
                             compensation_exception_tracebacks := d |}) /\
     log m_fail = before ++ [EAct 2 [payment] (Raised out_of_stock)] /\
     _run_compensations saga_frames (fst failing_third_and_first_undo)
       (Some out_of_stock) 2 m_fail
     = (Returned d, snd (run failing_third_and_first_undo)) /\
     compensated (events failing_third_and_first_undo)
     = filter (is_step_at (fst failing_third_and_first_undo)) (rev (seq 0 2)) /\
     (forall j e, In (ECompensate j (Raised e)) (events failing_third_and_first_undo) ->
                  dict_get d j = Some (e, stored_trace e)) /\
     (forall j v, In (ECompensate j (Returned v)) (events failing_third_and_first_undo) ->
                  dict_get d j = None)) /\
  fst (run failing_third_and_first_undo)
  = Raised (Saga_error
              {| failed_step_index := 2;
                 action_exception := out_of_stock;
                 action_traceback := service_block "ValueError" "out of stock";
                 compensation_exception_tracebacks :=
                   [(0, (refund_refused, service_block "RuntimeError" "refund refused"))] |}) /\
  world (snd (run failing_third_and_first_undo))
  = ["create_order"; "pay_for"; "reserve_for"; "cancel_payment"; "cancel_order"]%string.
Proof.
  split; [|split; vm_compute; reflexivity].
  apply (failed_run_raises_SagaError World saga_frames
           (fst failing_third_and_first_undo) None (snd failing_third_and_first_undo)
           2 [payment] out_of_stock).
  - vm_compute. right. right. now left.
  - reflexivity.
  - intros j e H. vm_compute in H.
    destruct H as [[H|[H|[H|[H|[H|[]]]]]]|[H|[H|[H|[H|[H|[]]]]]]];
      try discriminate; inversion H; reflexivity.
Defined.

(** A run whose action is interrupted, and a run one of whose
    compensations is interrupted, raise the [KeyboardInterrupt] itself: no
    [SagaError], and in the second run a step that is never compensated. *)
Lemma interrupt_leaves_execute_as_it_is :
  fst (run interrupted_third) = Raised (Base_exception (interrupt "stopped" None)) /\
  In (EAct 2 [payment] (Raised (interrupt "stopped" None))) (events interrupted_third) /\
  (forall failure, fst (run interrupted_third) <> Raised (Saga_error failure)) /\
  fst (run interrupted_undo)
  = Raised (Base_exception (interrupt "stopped" (Some out_of_stock))) /\
  In (EAct 2 [payment] (Raised out_of_stock)) (events interrupted_undo) /\
  (forall failure, fst (run interrupted_undo) <> Raised (Saga_error failure)) /\
  compensated (events interrupted_undo) = [1].
Proof.
  split; [vm_compute; reflexivity|].
  split; [vm_compute; right; right; now left|].
  split; [intros failure; vm_compute; discriminate|].
  split; [vm_compute; reflexivity|].
  split; [vm_compute; right; right; now left|].
  split; [intros failure; vm_compute; discriminate|].
  vm_compute. reflexivity.
Qed.

(** Two steps: the second receives the order, and its compensation the
    payment. *)
Lemma results_are_normalized_and_threaded_witness :
  threaded [] (events two_steps) /\
  compensation_args (store (snd (run two_steps)) 1) = Some (normalize payment).
Proof.
  destruct (results_are_normalized_and_threaded World saga_frames
              (fst two_steps) None (snd two_steps)) as (_ & _ & Hthreaded & Hargs).
  split; [exact Hthreaded|].
  apply (Hargs 1 [order] payment 1).
  - vm_compute. right. now left.
  - reflexivity.
  - vm_compute. repeat constructor; simpl; lia.
Defined.

(** Two steps that succeed, the first of which cannot be compensated. *)
Definition two_steps_first_undo_fails : Saga World * machine World :=
  orchestrate [(create_order, cancel_order_fails); (pay_for, cancel_payment)].

(** Compensating both steps: the second is undone, the failure of the
    first is stored under 0. *)
Lemma compensation_failures_are_recorded_witness :
  let self := fst two_steps_first_undo_fails in
  let m := snd (run two_steps_first_undo_fails) in
  let handling := Some out_of_stock in
  let done := _run_compensations saga_frames self handling 2 m in
  let evs := events_since (log m) (log (snd done)) in
  evs = [ECompensate 1 (Returned VNone); ECompensate 0 (Raised refund_refused)] /\
  compensated evs = [1; 0] /\
  (exists d, fst done = Returned d /\
             dict_get d 1 = None /\
             exists t, dict_get d 0 = Some (refund_refused, t)) /\
  (exists w w',
     compensate saga_frames (store m 0) handling w = (Raised refund_refused, w')) /\
  world (snd done) = ["create_order"; "pay_for"; "cancel_payment"; "cancel_order"]%string.
Proof.
  intros self m handling done evs.
  split; [vm_compute; reflexivity|].
  destruct (compensation_failures_are_recorded World saga_frames self handling 2 m)
    as (d & Hfst & Horder & Hcalls & Hraised & Hreturned).
  - intros j e H. vm_compute in H.
    destruct H as [[H|[H|[]]]|[H|[H|[]]]]; try discriminate; inversion H; reflexivity.
  - split; [exact Horder|]. split; [|split].
    + exists d. split; [exact Hfst|]. split.
      * apply (Hreturned 1 VNone). vm_compute. now left.
      * destruct (Hraised 0 refund_refused) as [Hget _]; [|exact Hget].
        vm_compute. right. now left.
    + destruct (Hcalls 0 (Raised refund_refused)) as (l & w & w' & Hnth & Hc & _).
      * vm_compute. right. now left.
      * vm_compute in Hnth. inversion Hnth; subst l. exists w, w'. exact Hc.
    + vm_compute. reflexivity.
Defined.

(** The compensation phase over two steps that succeeded, the second of
    which has a compensation that is interrupted. *)
Definition interrupted_phase : outcome exn errors * machine World :=
  _run_compensations saga_frames (fst two_steps_second_undo_interrupted) (Some out_of_stock) 2
    (snd (run two_steps_second_undo_interrupted)).

(** A compensation that is interrupted ends the compensation phase: no
    mapping is returned, and the step below is not compensated. *)
Lemma interrupted_compensation_ends_the_phase :
  events_since (log (snd (run two_steps_second_undo_interrupted))) (log (snd interrupted_phase))
  = [ECompensate 1 (Raised (interrupt "stopped" (Some out_of_stock)))] /\
  fst interrupted_phase = Raised (interrupt "stopped" (Some out_of_stock)) /\
  (forall d, fst interrupted_phase <> Returned d) /\
  is_step_at (fst two_steps_second_undo_interrupted) 0 = true /\
  (forall o, ~ In (ECompensate 0 o)
                  (events_since (log (snd (run two_steps_second_undo_interrupted)))
                     (log (snd interrupted_phase)))) /\
  world (snd interrupted_phase) = ["create_order"; "pay_for"; "cancel_payment"]%string.
Proof.
  split; [vm_compute; reflexivity|].
  split; [vm_compute; reflexivity|].
  split; [intros d; vm_compute; discriminate|].
  split; [reflexivity|].
  split; [|vm_compute; reflexivity].
  intros o H. vm_compute in H. destruct H as [H|[]]. discriminate.
Qed.


(** The second step has both fields set, the failed third has neither. *)
Lemma fields_are_set_together_on_success_witness :
  let m' := snd (run failing_third) in
  (result (store m' 1) = payment /\
   compensation_args (store m' 1) = Some (AsTuple [payment])) /\
  (result (store m' 2) = VNone /\ compensation_args (store m' 2) = None).
Proof.
  intros m'. split.
  - destruct (fields_are_set_together_on_success World saga_frames
                (fst failing_third) None (snd failing_third) 1)
      as [(i & inputs & r & c & w & w' & Hnth & Hin & _ & _ & Hres & Hargs)|(Hnone & _)].
    + assert (Hr : r = payment).
      { revert Hnth Hin. vm_compute.
        destruct i as [|[|[|[|[|i]]]]]; try discriminate.
        intros _ [H|[H|[H|[H|[H|[]]]]]]; inversion H. reflexivity. }
      subst m'. rewrite Hr in Hres, Hargs. unfold run. rewrite Hres, Hargs.
      split; reflexivity.
    + exfalso. apply (Hnone 1 [order] payment); [reflexivity|].
      vm_compute. right. now left.
  - destruct (fields_are_set_together_on_success World saga_frames
                (fst failing_third) None (snd failing_third) 2)
      as [(i & inputs & r & c & w & w' & Hnth & Hin & _)|(_ & _ & _ & Hunset)].
    + exfalso. revert Hnth Hin. vm_compute.
      destruct i as [|[|[|[|[|i]]]]]; try discriminate.
      intros _ [H|[H|[H|[H|[H|[]]]]]]; discriminate.
    + subst m'. unfold run. apply Hunset; reflexivity.
Defined.

(** A second run of the saga whose one action is accepted once. *)
Definition second_run_once : outcome thrown (Saga World) * machine World :=
  execute saga_frames (fst one_step_once) None (snd (run one_step_once)).

(** A step whose action returned in a first run and raised in a second
    keeps after the second the fields it got in the first. *)
Lemma fields_survive_a_failed_second_run :
  fst (run one_step_once) = Returned (fst one_step_once) /\
  nth_error (steps (fst one_step_once)) 0 = Some (Step 0) /\
  acted (events_since (log (snd (run one_step_once))) (log (snd second_run_once)))
  = [(0, false)] /\
  (exists failure,
     fst second_run_once = Raised (Saga_error failure) /\ failed_step_index failure = 0) /\
  result (store (snd second_run_once) 0) = order /\
  compensation_args (store (snd second_run_once) 0) = Some (AsTuple [order]) /\
  result (store (snd second_run_once) 0) <> VNone /\
  compensation_args (store (snd second_run_once) 0) <> None.
Proof.
  split; [vm_compute; reflexivity|].
  split; [reflexivity|].
  split; [vm_compute; reflexivity|].
  split; [vm_compute; eexists; split; reflexivity|].
  split; [vm_compute; reflexivity|].
  split; [vm_compute; reflexivity|].
  split; vm_compute; discriminate.
Qed.

(** C3. [validate_payment] of [saga.py] declares no parameter and has two
    local variables. Called with no argument it returns; [act] nevertheless
    gives it the result of the step before, and the call raises
    [TypeError]. Likewise [compensate] gives [compensation_args] to a
    compensation without parameter that has a local variable. The first
    two steps of [run_saga] therefore fail at the second. *)
Theorem act_gives_inputs_to_action_without_parameter :
  let step := new_Action validate_payment cancel_payment in
  let undo := {| action := create_order;
                 compensation := release_all;
                 compensation_args := Some (AsTuple [order]);
                 result := order |} in
  option_map co_params (__code__ _ validate_payment) = Some [] /\
  act saga_frames step None [] [] = (Returned payment, ["validate_payment"%string]) /\
  (exists e,
     act saga_frames step None [order] [] = (Raised e, []) /\
     type_name e = lit "TypeError" /\
     message e = lit "validate_payment() takes 0 positional arguments but 1 was given") /\
  option_map co_params (__code__ _ release_all) = Some [] /\
  (exists e,
     compensate saga_frames undo None [] = (Raised e, []) /\
     type_name e = lit "TypeError" /\
     message e = lit "release_all() takes 0 positional arguments but 1 was given") /\
  (match fst (run run_saga) with
   | Raised (Saga_error failure) =>
       failed_step_index failure = 1 /\
       type_name (action_exception failure) = lit "TypeError"
   | _ => False
   end).
Proof.
  cbv zeta.
  split; [reflexivity|]. split; [reflexivity|].
  split; [eexists; repeat split; vm_compute; reflexivity|].
  split; [reflexivity|].
  split; [eexists; repeat split; vm_compute; reflexivity|].
  vm_compute. auto.
Qed.

(** C8. A compensation that raises with [from None] has the empty string
    as its stored trace, although the exception has a trace of its own;
    and the stored trace of an exception raised while the compensation
    handles an error of its own still contains the framing sentence. *)
Theorem stored_trace_empty_after_raise_from_None :
  let handling := Some (raise_ "ValueError" "out of stock" None) in
  let inner := raise_ "KeyError" "order_id" handling in
  let nested := raise_ "RuntimeError" "refund refused" (Some inner) in
  (match fst (run failing_third_and_first_undo_from_None) with
   | Raised (Saga_error failure) =>
       dict_get (compensation_exception_tracebacks failure) 0
       = Some (raise_from_None "RuntimeError" "refund refused" handling, [])
   | _ => False
   end) /\
  trace_block (raise_from_None "RuntimeError" "refund refused" handling) <> [] /\
  stored_trace nested
  = service_block "KeyError" "order_id" ++ nl ++ handling_marker
    ++ service_block "RuntimeError" "refund refused".
Proof.
  cbv zeta. split; [vm_compute; reflexivity|].
  split; [vm_compute; discriminate | vm_compute; reflexivity].
Qed.

(** C10. With [None] before a step whose action raises, the compensation
    phase reaches for [None.compensate], and the failure reports an
    [AttributeError] under position 0. A list without any step completes
    with nothing done. *)
Theorem None_element_is_compensated :
  (match fst (run with_None) with
   | Raised (Saga_error failure) =>
       failed_step_index failure = 1 /\
       option_map (fun entry => (type_name (fst entry), message (fst entry)))
         (dict_get (compensation_exception_tracebacks failure) 0)
       = Some (lit "AttributeError", lit "'NoneType' object has no attribute 'compensate'")
   | _ => False
   end) /\
  run no_step_at_all = (Returned (fst no_step_at_all), snd no_step_at_all).
Proof.
  split; [vm_compute; auto | vm_compute; reflexivity].
Qed.

(** ** Further properties of the engine *)

Arguments try_compensate {World} stack_text self handling compensation_index m.
Arguments compensation_turn {World} stack_text self handling st compensation_index.
Arguments compensation_loop {World} stack_text self handling indices st.
Arguments execute_loop {World} stack_text self handling index rest args m.
Arguments orchestrator_execute {World} stack_text self handling m.
Arguments await_ {World} stack_text line handling r.
Arguments await_if_awaitable {World} handling r.
Arguments no_compensate_error {World} stack_text handling o.

Section Runs.

Variable World : Type.
Variable stack_text : nat -> str.

(** A run never replaces the callables of an [Action]: it writes
    [compensation_args] and [result] only. *)
Theorem execute_keeps_callables
    (self : Saga World) (handling : option exn) (m : machine World) (l : loc) :
  let m' := snd (execute stack_text self handling m) in
  action (store m' l) = action (store m l) /\
  compensation (store m' l) = compensation (store m l).
Proof.
  cbv zeta.
  destruct (execute_shape World stack_text self handling m)
    as [(args' & Hs & _)
       |(pre & l0 & post & evs0 & args_k & m_k & exc & w & added &
         _ & Hs & _ & _ & _ & Hstore & _)].
  - exact (succeeds_callables _ _ _ _ _ _ _ _ _ _ Hs l).
  - rewrite Hstore. exact (succeeds_callables _ _ _ _ _ _ _ _ _ _ Hs l).
Qed.

(** The compensation phase changes no [Action] object and calls no
    action. *)
Theorem run_compensations_leaves_steps
    (self : Saga World) (handling : option exn) (k : nat) (m : machine World) :
  let m' := snd (_run_compensations stack_text self handling k m) in
  store m' = store m /\ acted (events_since (log m) (log m')) = [].
Proof.
  cbv zeta.
  destruct (_run_compensations stack_text self handling k m) as [d m'] eqn:Hrun.
  destruct (run_compensations_spec World stack_text _ _ _ _ _ _ Hrun)
    as (Hstore & added & Hlog & Hact & _).
  simpl. split; [exact Hstore|]. now rewrite Hlog, events_since_app.
Qed.

(** When [execute] returns, it returns the saga it was called on, every
    [Action] of [steps] was acted on exactly once, in the order of the list,
    and no compensation was called. *)
Theorem completed_run_acts_once_in_order
    (self returned_saga : Saga World) (handling : option exn) (m : machine World) :
  let run := execute stack_text self handling m in
  let evs := events_since (log m) (log (snd run)) in
  fst run = Returned returned_saga ->
  returned_saga = self /\
  acted evs = map (fun i => (i, true)) (positions 0 (steps self)) /\
  compensated evs = [].
Proof.
  cbv zeta. intros Hret.
  destruct (execute_shape World stack_text self handling m)
    as [(args' & Hs & Hfst)
       |(pre & l0 & post & evs0 & args_k & m_k & exc & w & added &
         _ & _ & _ & _ & _ & _ & _ & _ & Hcases)].
  - rewrite Hfst in Hret. inversion Hret; subst.
    split; [reflexivity|]. split.
    + exact (succeeds_acted _ _ _ _ _ _ _ _ _ _ Hs).
    + exact (succeeds_compensated _ _ _ _ _ _ _ _ _ _ Hs).
  - exfalso. destruct Hcases as [(_ & _ & Hfst)|(_ & o & _ & Hout)].
    + rewrite Hfst in Hret. discriminate.
    + destruct o as [d|escaped]; destruct Hout as (Hfst & _);
        rewrite Hfst in Hret; discriminate.
Qed.

Lemma positions_app (a b : list (element World)) (index : nat) :
  positions index (a ++ b) = positions index a ++ positions (index + length a) b.
Proof.
  revert index. induction a as [|[l|v|o] a IH]; intros index; simpl.
  - now rewrite Nat.add_0_r.
  - now rewrite IH, Nat.add_succ_r.
  - now rewrite IH, Nat.add_succ_r.
  - now rewrite IH, Nat.add_succ_r.
Qed.

Lemma positions_bounds (els : list (element World)) (index i : nat) :
  In i (positions index els) -> index <= i < index + length els.
Proof.
  intros Hin. apply positions_In in Hin. destruct Hin as (Hle & l & Hnth).
  assert (i - index < length els) by (apply nth_error_Some; congruence). lia.
Qed.

(** When [execute] raises, the failed position holds an [Action]; the
    [Action]s before it were each acted on once, in order, and returned; the
    one at the failed position raised; and nothing after it was acted on. *)
Theorem failed_run_stops_at_failed_step
    (self : Saga World) (handling : option exn) (m : machine World) (failure : SagaError) :
  let run := execute stack_text self handling m in
  let evs := events_since (log m) (log (snd run)) in
  let k := failed_step_index failure in
  fst run = Raised (Saga_error failure) ->
  (exists l, nth_error (steps self) k = Some (Step l)) /\
  acted evs
  = map (fun i => (i, true)) (positions 0 (firstn k (steps self))) ++ [(k, false)] /\
  (forall i inputs o, In (EAct i inputs o) evs -> i <= k).
Proof.
  cbv zeta. intros Hraised.
  destruct (execute_failure_shape World stack_text self handling m failure Hraised)
    as (pre & l0 & post & evs0 & args_k & m_k & exc & w & added & d &
        Hsteps & Hs & _ & Hevs & Hact & _ & _ & _ & _ & Hfailure & _).
  subst failure. simpl.
  assert (Hfirst : firstn (length pre) (steps self) = pre).
  { rewrite Hsteps, firstn_app, Nat.sub_diag, firstn_all. simpl. apply app_nil_r. }
  assert (Hacted : acted (evs0 ++ EAct (length pre) (elements args_k) (Raised exc) :: added)
                   = map (fun i => (i, true)) (positions 0 pre) ++ [(length pre, false)]).
  { apply acted_failed_run; [exact (succeeds_acted _ _ _ _ _ _ _ _ _ _ Hs) | exact Hact]. }
  split; [|split].
  + exists l0. rewrite Hsteps, nth_error_app2, Nat.sub_diag by lia. reflexivity.
  + now rewrite Hevs, Hfirst.
  + intros i inputs o Hin. apply acted_In in Hin. rewrite Hevs, Hacted in Hin.
    apply in_app_or in Hin. destruct Hin as [Hin|[Heq|[]]].
    * apply in_map_iff in Hin. destruct Hin as (i' & Heq & Hpos).
      inversion Heq; subst i'. apply positions_bounds in Hpos. lia.
    * inversion Heq. lia.
Qed.

(** *** The mapping of compensation errors *)

(** What [_run_compensations] returns and logs, read from outside. *)
Lemma run_compensations_entries (self : Saga World) (handling : option exn) (k : nat)
    (m : machine World) (d : errors) :
  let done := _run_compensations stack_text self handling k m in
  let evs := events_since (log m) (log (snd done)) in
  fst done = Returned d ->
  (forall j o, In (ECompensate j o) evs ->
     j < k /\
     exists l w w',
       nth_error (steps self) j = Some (Step l) /\
       compensate stack_text (store m l) handling w = (o, w')) /\
  (forall j o, In (EForeign j o) evs ->
     j < k /\
     exists f method w w',
       nth_error (steps self) j = Some (Foreign f) /\
       foreign_compensate f = Some method /\
       await_ stack_text 101 handling (method handling w) = (o, w')) /\
  (forall j, j < k ->
     exists o, origin World stack_text self handling evs j o /\
               dict_get d j = match o with
                              | Raised e => Some (e, stored_trace e)
                              | Returned _ => None
                              end) /\
  (forall j, k <= j -> dict_get d j = None) /\
  keys d = filter (has_entry d) (range_down k).
Proof.
  cbv zeta. intros Hfst.
  destruct (_run_compensations stack_text self handling k m) as [o m'] eqn:Hrun.
  simpl in Hfst. subst o.
  destruct (run_compensations_spec World stack_text _ _ _ _ _ _ Hrun)
    as (_ & added & Hlog & _ & Hcomp & Hfor & _ & _ & _ & _ & Hent & Habove & Hkeys).
  simpl. rewrite Hlog, events_since_app. auto.
Qed.

(** The keys of the mapping returned by [_run_compensations] are the
    positions that have an entry, from the highest to the lowest, each once,
    all below the failed position. *)
Theorem error_keys_descend
    (self : Saga World) (handling : option exn) (k : nat) (m : machine World) (d : errors) :
  fst (_run_compensations stack_text self handling k m) = Returned d ->
  keys d = filter (has_entry d) (rev (seq 0 k)) /\
  (forall j, In j (keys d) -> j < k).
Proof.
  intros Hfst.
  destruct (run_compensations_entries self handling k m d Hfst) as (_ & _ & _ & _ & Hkeys).
  rewrite <- range_down_rev_seq.
  split; [exact Hkeys|].
  intros j Hj. rewrite Hkeys in Hj. apply filter_In in Hj.
  destruct Hj as [Hj _]. now apply range_down_lt.
Qed.

(** A position below the failed one that holds a plain value, or an object
    that is not an [Action] and has no attribute [compensate], gets an
    [AttributeError] in the mapping. An object that is not an [Action] and
    has an attribute [compensate] has it called and awaited, and gets an
    entry when that raises. *)
Theorem non_step_position_is_recorded
    (self : Saga World) (handling : option exn) (k : nat) (m : machine World)
    (j : nat) (d : errors) :
  let done := _run_compensations stack_text self handling k m in
  let evs := events_since (log m) (log (snd done)) in
  fst done = Returned d ->
  j < k ->
  match nth_error (steps self) j with
  | Some (NotStep v) =>
      dict_get d j
      = Some (not_a_step_error stack_text handling v,
              stored_trace (not_a_step_error stack_text handling v))
  | Some (Foreign o) =>
      match foreign_compensate o with
      | None =>
          dict_get d j
          = Some (no_compensate_error stack_text handling o,
                  stored_trace (no_compensate_error stack_text handling o))
      | Some method =>
          exists r w w',
            In (EForeign j r) evs /\
            await_ stack_text 101 handling (method handling w) = (r, w') /\
            dict_get d j = match r with
                           | Raised e => Some (e, stored_trace e)
                           | Returned _ => None
                           end
      end
  | _ => True
  end.
Proof.
  cbv zeta. intros Hfst Hj.
  destruct (run_compensations_entries self handling k m d Hfst) as (_ & Hfor & Hent & _).
  destruct (Hent j Hj) as (o & Horigin & Hget). unfold origin in Horigin.
  destruct (nth_error (steps self) j) as [[l|v|f]|] eqn:Hnth; [exact I| | |exact I].
  - subst o. exact Hget.
  - destruct (foreign_compensate f) as [method|] eqn:Hmethod.
    + destruct (Hfor j o Horigin) as (_ & f' & method' & w & w' & Hnth' & Hmethod' & Hawait).
      assert (method' = method) by congruence. subst method'.
      exists o, w, w'. auto.
    + subst o. exact Hget.
Qed.

(** [_run_compensations] called with an index past the end of [steps]
    does not raise at the missing positions: the turn of such a position
    stores an [IndexError] under it and goes on, and the mapping returned
    has that entry. *)
Theorem position_past_end_is_recorded
    (self : Saga World) (handling : option exn) (k : nat) (m : machine World) (j : nat)
    (d : errors) :
  length (steps self) <= j ->
  (forall d0 m0,
     compensation_turn stack_text self handling (d0, m0) j
     = (Returned (dict_set d0 j (out_of_range_error stack_text handling,
                                 stored_trace (out_of_range_error stack_text handling))),
        m0)) /\
  (fst (_run_compensations stack_text self handling k m) = Returned d ->
   j < k ->
   dict_get d j
   = Some (out_of_range_error stack_text handling,
           stored_trace (out_of_range_error stack_text handling))).
Proof.
  intros Hlen. apply nth_error_None in Hlen. split.
  - intros d0 m0.
    destruct (compensation_turn_cases World stack_text self handling d0 m0 j)
      as (o & m1 & Htry & Hturn).
    rewrite Hturn. unfold try_compensate in Htry. rewrite Hlen in Htry.
    inversion Htry; subst o m1. reflexivity.
  - intros Hfst Hj.
    destruct (run_compensations_entries self handling k m d Hfst) as (_ & _ & Hent & _).
    destruct (Hent j Hj) as (o & Horigin & Hget). unfold origin in Horigin.
    rewrite Hlen in Horigin. subst o. exact Hget.
Qed.

(** Every entry of the mapping comes from a failure at its position, below
    the failed one: a compensation that raised that exception, an element
    that is no [Action], or a position past the end. Its trace is the
    stored trace of its exception. *)
Theorem every_entry_comes_from_a_failure
    (self : Saga World) (handling : option exn) (k : nat) (m : machine World)
    (d : errors) (j : nat) (e : exn) (t : str) :
  let done := _run_compensations stack_text self handling k m in
  let evs := events_since (log m) (log (snd done)) in
  fst done = Returned d ->
  dict_get d j = Some (e, t) ->
  j < k /\
  t = stored_trace e /\
  (In (ECompensate j (Raised e)) evs \/
   (exists v, nth_error (steps self) j = Some (NotStep v) /\
              e = not_a_step_error stack_text handling v) \/
   (exists o, nth_error (steps self) j = Some (Foreign o) /\
              (In (EForeign j (Raised e)) evs \/
               foreign_compensate o = None /\ e = no_compensate_error stack_text handling o)) \/
   (nth_error (steps self) j = None /\ e = out_of_range_error stack_text handling)).
Proof.
  cbv zeta. intros Hfst Hget.
  destruct (run_compensations_entries self handling k m d Hfst) as (_ & _ & Hent & Habove & _).
  destruct (Nat.lt_ge_cases j k) as [Hj|Hj]; [|rewrite (Habove j Hj) in Hget; discriminate].
  split; [exact Hj|].
  destruct (Hent j Hj) as (o & Horigin & Hd). unfold origin in Horigin.
  rewrite Hd in Hget. destruct o as [r|e']; [discriminate|]. inversion Hget; subst e' t.
  split; [reflexivity|].
  destruct (nth_error (steps self) j) as [[l|v|f]|].
  - now left.
  - right. left. exists v. split; [reflexivity|]. now inversion Horigin.
  - right. right. left. exists f. split; [reflexivity|].
    destruct (foreign_compensate f); [now left|]. right. split; [reflexivity|].
    now inversion Horigin.
  - right. right. right. split; [reflexivity|]. now inversion Horigin.
Qed.

Lemma nth_error_objects_inj (els : list (element World)) (i j : nat) (l : loc) :
  NoDup (objects els) ->
  nth_error els i = Some (Step l) -> nth_error els j = Some (Step l) -> i = j.
Proof.
  revert i j. induction els as [|[l0|v|o] els IH]; intros i j Hnd Hi Hj.
  - destruct i; discriminate.
  - simpl in Hnd. inversion Hnd as [|? ? Hnotin Hnd']; subst.
    destruct i as [|i], j as [|j]; simpl in Hi, Hj; auto.
    + inversion Hi; subst. exfalso. apply Hnotin. eapply nth_error_objects; eauto.
    + inversion Hj; subst. exfalso. apply Hnotin. eapply nth_error_objects; eauto.
  - destruct i as [|i], j as [|j]; simpl in Hi, Hj; try discriminate. f_equal. eauto.
  - destruct i as [|i], j as [|j]; simpl in Hi, Hj; try discriminate. f_equal. eauto.
Qed.

(** In a failed run over distinct [Action] objects, every call to
    [compensate] is made on a step below the failed one whose action
    returned in this run, while the exception of the failed action is being
    handled, and with [compensation_args] holding the normalized result of
    that step's own action. *)
Theorem compensation_gets_result_of_its_step
    (self : Saga World) (handling : option exn) (m : machine World)
    (failure : SagaError) (j : nat) (o : outcome exn value) :
  let run := execute stack_text self handling m in
  let evs := events_since (log m) (log (snd run)) in
  NoDup (objects (steps self)) ->
  fst run = Raised (Saga_error failure) ->
  In (ECompensate j o) evs ->
  j < failed_step_index failure /\
  exists l inputs r w w',
    nth_error (steps self) j = Some (Step l) /\
    In (EAct j inputs (Returned r)) evs /\
    compensation_args (store (snd run) l) = Some (normalize r) /\
    compensate stack_text (store (snd run) l) (Some (action_exception failure)) w = (o, w').
Proof.
  cbv zeta. intros Hnd Hraised Hin.
  destruct (execute_failure_shape World stack_text self handling m failure Hraised)
    as (pre & l0 & post & evs0 & args_k & m_k & exc & w0 & added & d &
        Hsteps & Hs & _ & Hevs & Hact & Hstore & Hcomp_ev & _ & _ & Hfailure & _).
  subst failure. simpl.
  destruct (failed_run_events World stack_text _ _ _ _ _ _ _ _ added (length pre)
              (elements args_k) exc Hs Hact) as (_ & _ & Hin_comp & _).
  rewrite <- Hevs in Hin_comp.
  destruct (Hcomp_ev j o (proj1 (Hin_comp j o) Hin)) as (Hj & l & w & w' & Hnth & Hc).
  split; [exact Hj|].
  assert (Hpre : nth_error pre j = Some (Step l)).
  { rewrite Hsteps, nth_error_app1 in Hnth by exact Hj. exact Hnth. }
  assert (Hndpre : NoDup (objects pre)).
  { rewrite Hsteps, objects_app in Hnd. now apply NoDup_app_remove_r in Hnd. }
  destruct (succeeds_fields _ _ _ _ _ _ _ _ _ _ Hs Hndpre j l Hpre)
    as (inputs & r & Hacted & _ & Hargs).
  exists l, inputs, r, w, w'. rewrite Hstore.
  split; [exact Hnth|]. split; [|split; [exact Hargs | exact Hc]].
  rewrite Hevs. apply in_or_app. left. exact Hacted.
Qed.

(** *** Exceptions that are not instances of [Exception] *)

(** When an action raises an exception that is not an instance of
    [Exception], [execute] raises that exception itself: no [SagaError] is
    built, no compensation is called, and no element after the failing one
    is acted on. *)
Theorem base_exception_of_action_leaves_execute
    (self : Saga World) (handling : option exn) (m : machine World)
    (k : nat) (inputs : list value) (exc : exn) :
  let run := execute stack_text self handling m in
  let evs := events_since (log m) (log (snd run)) in
  In (EAct k inputs (Raised exc)) evs ->
  is_exception exc = false ->
  fst run = Raised (Base_exception exc) /\
  compensated evs = [] /\
  (forall j o, ~ In (EForeign j o) evs) /\
  (forall i given o, In (EAct i given o) evs -> i <= k).
Proof.
  cbv zeta. intros Hin Hexc.
  destruct (execute_shape World stack_text self handling m)
    as [(args' & Hs & _)
       |(pre & l & post & evs0 & args_k & m_k & exc' & w & added &
         Hsteps & Hs & _ & Hevs & Hact & _ & _ & _ & Hcases)].
  { destruct (succeeds_event_position _ _ _ _ _ _ _ _ _ _ Hs _ _ _ Hin) as (_ & _ & Hb).
    discriminate. }
  destruct (failed_run_events World stack_text _ _ _ _ _ _ _ _ added (length pre)
              (elements args_k) exc' Hs Hact) as (Hraised & _ & Hin_comp & Hin_for).
  rewrite <- Hevs in Hraised, Hin_comp, Hin_for.
  destruct (Hraised _ _ _ Hin) as (Hk & Hinputs & Hsame). subst k inputs exc'.
  destruct Hcases as [(_ & Hadded & Hfst)|(Hyes & _)]; [|congruence].
  subst added. split; [exact Hfst|]. split; [|split].
  - rewrite Hevs, compensated_app. simpl.
    now rewrite (succeeds_compensated _ _ _ _ _ _ _ _ _ _ Hs).
  - intros j o Hj. apply Hin_for in Hj. contradiction.
  - intros i given o Hi. apply acted_In in Hi.
    rewrite Hevs in Hi.
    rewrite (acted_failed_run World evs0 [] (length pre) (elements args_k) exc pre
               (succeeds_acted _ _ _ _ _ _ _ _ _ _ Hs) eq_refl) in Hi.
    apply in_app_or in Hi. destruct Hi as [Hi|[Heq|[]]].
    + apply in_map_iff in Hi. destruct Hi as (i' & Heq & Hpos).
      inversion Heq; subst i'. apply positions_bounds in Hpos. lia.
    + inversion Heq. lia.
Qed.

(** When [_run_compensations] raises, it raises an exception that is not an
    instance of [Exception], which the last call it made raised: a call of
    [compensate] at a position below the index. The positions below that
    one were not visited. *)
Theorem base_exception_of_compensation_ends_the_phase
    (self : Saga World) (handling : option exn) (k : nat) (m : machine World)
    (escaped : exn) :
  let done := _run_compensations stack_text self handling k m in
  let evs := events_since (log m) (log (snd done)) in
  fst done = Raised escaped ->
  is_exception escaped = false /\
  exists j before,
    j < k /\
    (evs = before ++ [ECompensate j (Raised escaped)] \/
     evs = before ++ [EForeign j (Raised escaped)]) /\
    (forall i o, In (ECompensate i o) before \/ In (EForeign i o) before -> j < i < k).
Proof.
  cbv zeta. intros Hfst.
  destruct (_run_compensations stack_text self handling k m) as [o m'] eqn:Hrun.
  simpl in Hfst. subst o. simpl.
  destruct (run_compensations_spec World stack_text _ _ _ _ _ _ Hrun)
    as (_ & added & _ & _ & _ & _ & Hesc & _).
  split; [exact Hesc|].
  unfold _run_compensations in Hrun.
  destruct (compensation_loop_raised World stack_text _ _ _ _ _ _ _ Hrun)
    as (js1 & j & js2 & before & Hjs & Hlog & Hbefore).
  destruct (range_down_split _ _ _ _ Hjs) as (Hj & Habove).
  exists j, before. split; [exact Hj|]. split.
  - destruct Hlog as [Hlog|Hlog]; [left|right]; rewrite Hlog; apply events_since_app.
  - intros i o Hin. apply Habove. exact (Hbefore i o Hin).
Qed.

(** Whatever [execute] raises that is not a [SagaError] is an exception
    that is not an instance of [Exception], raised by the action of a step,
    after which no compensation was called, or by a compensation. *)
Theorem execute_raises_SagaError_or_base_exception
    (self : Saga World) (handling : option exn) (m : machine World) (escaped : exn) :
  let run := execute stack_text self handling m in
  let evs := events_since (log m) (log (snd run)) in
  fst run = Raised (Base_exception escaped) ->
  is_exception escaped = false /\
  ((exists k inputs, In (EAct k inputs (Raised escaped)) evs /\ compensated evs = []) \/
   (exists j, In (ECompensate j (Raised escaped)) evs \/
              In (EForeign j (Raised escaped)) evs)).
Proof.
  cbv zeta. intros Hraised.
  destruct (execute_shape World stack_text self handling m)
    as [(args' & _ & Hfst)
       |(pre & l & post & evs0 & args_k & m_k & exc & w & added &
         Hsteps & Hs & _ & Hevs & Hact & _ & _ & _ & Hcases)].
  { rewrite Hfst in Hraised. discriminate. }
  destruct Hcases as [(Hexc & Hadded & Hfst)|(_ & o & _ & Hout)].
  - rewrite Hfst in Hraised. inversion Hraised; subst escaped added.
    split; [exact Hexc|]. left. exists (length pre), (elements args_k). split.
    + rewrite Hevs. apply in_or_app. right. now left.
    + rewrite Hevs, compensated_app. simpl.
      now rewrite (succeeds_compensated _ _ _ _ _ _ _ _ _ _ Hs).
  - destruct o as [d|b].
    + destruct Hout as (Hfst & _). rewrite Hfst in Hraised. discriminate.
    + destruct Hout as (Hfst & Hesc & j & Hj).
      rewrite Hfst in Hraised. inversion Hraised; subst b.
      split; [exact Hesc|]. right. exists j.
      destruct Hj as [Hj|Hj]; [left|right]; rewrite Hevs; apply in_or_app; right; now right.
Qed.

End Runs.

(** ** Sagas without steps *)

(** A saga whose list holds no [Action], the empty list among them, runs
    to the end: [execute] returns the saga, calls nothing, and leaves the
    world, the objects and the log as they were. *)
Theorem saga_without_steps_completes
    (World : Type) (stack_text : nat -> str)
    (self : Saga World) (handling : option exn) (m : machine World) :
  objects (steps self) = [] ->
  execute stack_text self handling m = (Returned self, m).
Proof.
  exact (only_non_steps_completes World stack_text self handling m).
Qed.

(** ** The builder *)

Section Builder.

Variable World : Type.
Variable stack_text : nat -> str.

(** [UserCommandOrchestrator()]; [next] is the identity that the next
    [Action] object created will get. *)
Definition new_orchestrator (next : loc) : UserCommandOrchestrator World :=
  {| orchestrator_steps := []; next_loc := next |}.

(** A chain of calls [.add_step(a1, c1).add_step(a2, c2)...]. *)
Fixpoint add_steps (pairs : list (callable World * callable World))
    (self : UserCommandOrchestrator World) (s : loc -> Action World)
    : UserCommandOrchestrator World * (loc -> Action World) :=
  match pairs with
  | [] => (self, s)
  | (action_, compensation_) :: pairs' =>
      let (self', s') := add_step self action_ compensation_ s in
      add_steps pairs' self' s'
  end.

Lemma add_steps_spec :
  forall pairs self s self' s',
  add_steps pairs self s = (self', s') ->
  orchestrator_steps self'
  = orchestrator_steps self ++ map Step (seq (next_loc self) (length pairs)) /\
  next_loc self' = next_loc self + length pairs /\
  (forall i a c, nth_error pairs i = Some (a, c) ->
                 s' (next_loc self + i) = new_Action a c) /\
  (forall l, l < next_loc self -> s' l = s l).
Proof.
  induction pairs as [|[a0 c0] pairs IH]; intros self s self' s' Hadd; simpl in Hadd.
  - inversion Hadd; subst. simpl. rewrite app_nil_r, Nat.add_0_r.
    repeat split; auto. intros i a c H. destruct i; discriminate.
  - destruct (IH _ _ _ _ Hadd) as (Hsteps & Hnext & Hnew & Hold). simpl in *.
    split; [rewrite Hsteps, <- app_assoc; reflexivity|].
    split; [lia|]. split.
    + intros i a c Hnth. destruct i as [|i]; simpl in Hnth.
      * inversion Hnth; subst. rewrite Nat.add_0_r, Hold by lia.
        unfold upd. now rewrite Nat.eqb_refl.
      * rewrite <- (Hnew i a c Hnth). f_equal. lia.
    + intros l Hl. rewrite Hold by lia. unfold upd.
      destruct (Nat.eqb l (next_loc self)) eqn:E; [|reflexivity].
      apply Nat.eqb_eq in E. lia.
Qed.

Lemma objects_map_Step (ls : list loc) : objects (map (@Step World) ls) = ls.
Proof.
  induction ls as [|l ls IH]; simpl; [reflexivity | now rewrite IH].
Qed.


(** Steps added to a new orchestrator are held in the order of the calls,
    each in an [Action] object of its own, with [compensation_args] and
    [result] unset. *)
Theorem added_steps_are_distinct_and_unset
    (pairs : list (callable World * callable World)) (next : loc)
    (s : loc -> Action World) :
  let built := add_steps pairs (new_orchestrator next) s in
  let steps_ := orchestrator_steps (fst built) in
  length steps_ = length pairs /\
  NoDup (objects steps_) /\
  (forall i a c, nth_error pairs i = Some (a, c) ->
     nth_error steps_ i = Some (Step (next + i)) /\
     action (snd built (next + i)) = a /\
     compensation (snd built (next + i)) = c /\
     compensation_args (snd built (next + i)) = None /\
     result (snd built (next + i)) = VNone).
Proof.
  cbv zeta.
  destruct (add_steps pairs (new_orchestrator next) s) as [self' s'] eqn:Hadd.
  destruct (add_steps_spec _ _ _ _ _ Hadd) as (Hsteps & _ & Hnew & _).
  simpl in *. rewrite Hsteps.
  split; [now rewrite length_map, length_seq|].
  split; [rewrite objects_map_Step; apply seq_NoDup|].
  intros i a c Hnth. rewrite (Hnew i a c Hnth). simpl.
  split; [|auto].
  assert (Hlt : i < length pairs) by (apply nth_error_Some; congruence).
  rewrite nth_error_map, nth_error_seq.
  destruct (Nat.ltb_spec i (length pairs)); [reflexivity | lia].
Qed.


(** When that saga fails, the step that failed and the steps after it
    still have [compensation_args] and [result] unset. *)
Theorem orchestrated_failure_leaves_later_steps_unset
    (pairs : list (callable World * callable World)) (next : loc)
    (s : loc -> Action World) (w : World) (handling : option exn)
    (failure : SagaError) (i : nat) :
  let built := add_steps pairs (new_orchestrator next) s in
  let run := orchestrator_execute stack_text (fst built) handling
               {| world := w; store := snd built; log := [] |} in
  fst run = Raised (Saga_error failure) ->
  failed_step_index failure <= i < length pairs ->
  compensation_args (store (snd run) (next + i)) = None /\
  result (store (snd run) (next + i)) = VNone.
Proof.
  cbv zeta. intros Hraised [Hk Hi].
  destruct (add_steps pairs (new_orchestrator next) s) as [self' s'] eqn:Hadd.
  destruct (add_steps_spec _ _ _ _ _ Hadd) as (Hsteps & _ & Hnew & _).
  simpl in *. unfold orchestrator_execute in *.
  set (self := {| steps := orchestrator_steps self' |}) in *.
  set (m := {| world := w; store := s'; log := [] |}) in *.
  destruct (execute_failure_shape World stack_text self handling m failure Hraised)
    as (pre & l0 & post & evs0 & args_k & m_k & exc & w0 & added & d &
        Hpre & Hs & _ & _ & _ & Hstore & _ & _ & _ & Hfailure & _).
  subst failure. simpl in Hk.
  rewrite Hstore.
  assert (Hnot : ~ In (next + i) (objects pre)).
  { intros Hin. apply (objects_In World stack_text), In_nth_error in Hin.
    destruct Hin as [j Hj].
    assert (Hjlt : j < length pre) by (apply nth_error_Some; congruence).
    assert (Hsj : nth_error (steps self) j = Some (Step (next + i)))
      by (rewrite Hpre, nth_error_app1; assumption).
    simpl in Hsj. rewrite Hsteps, nth_error_map, nth_error_seq in Hsj.
    destruct (Nat.ltb j (length pairs)); simpl in Hsj; [|discriminate].
    inversion Hsj. lia. }
  rewrite (succeeds_frame _ _ _ _ _ _ _ _ _ _ Hs _ Hnot). simpl.
  destruct (nth_error pairs i) as [[a c]|] eqn:Hnth;
    [|apply nth_error_None in Hnth; lia].
  rewrite (Hnew i a c Hnth). auto.
Qed.

End Builder.

(** ** Further properties of the rendering *)

Lemma lstrip_all_space (a b : str) :
  forallb is_space a = true -> lstrip (a ++ b) = lstrip b.
Proof.
  induction a as [|c a IH]; simpl; intros H; [reflexivity|].
  apply andb_prop in H. destruct H as [Hc Ha]. rewrite Hc. auto.
Qed.

Lemma lstrip_nil_all_space (s : str) : lstrip s = [] -> forallb is_space s = true.
Proof.
  induction s as [|c s IH]; simpl; intros H; [reflexivity|].
  destruct (is_space c); [auto | discriminate].
Qed.

Lemma lstrip_app_kept (s t : str) : lstrip s <> [] -> lstrip (s ++ t) = lstrip s ++ t.
Proof.
  induction s as [|c s IH]; simpl; intros H; [congruence|].
  destruct (is_space c); [auto | reflexivity].
Qed.

Lemma lstrip_idempotent (s : str) : lstrip (lstrip s) = lstrip s.
Proof.
  induction s as [|c s IH]; simpl; [reflexivity|].
  destruct (is_space c) eqn:E; [exact IH|]. simpl. now rewrite E.
Qed.

Lemma lstrip_keeps_suffix (a b : str) (c : N) :
  is_space c = false -> exists a', lstrip (a ++ c :: b) = a' ++ c :: b.
Proof.
  intros Hc. induction a as [|x a IH]; simpl.
  - rewrite Hc. now exists [].
  - destruct (is_space x); [exact IH|]. now exists (x :: a).
Qed.

(** Text added after [s] that is all white space does not change
    [strip]. *)
Lemma strip_drops_trailing_space (s t : str) :
  forallb is_space t = true -> strip (s ++ t) = strip s.
Proof.
  intros Ht. unfold strip.
  destruct (lstrip s) as [|c s'] eqn:Hs.
  - rewrite lstrip_all_space by now apply lstrip_nil_all_space.
    replace (lstrip t) with (@nil N); [reflexivity|].
    symmetry. rewrite <- (app_nil_r t), lstrip_all_space by exact Ht. reflexivity.
  - rewrite lstrip_app_kept by (rewrite Hs; discriminate).
    rewrite Hs, rev_app_distr. f_equal. apply lstrip_all_space.
    rewrite forallb_forall in *. intros x Hx. apply Ht. now apply in_rev.
Qed.

(** [strip] keeps a prefix that begins and ends with characters that are
    not white space. *)
Lemma strip_keeps_prefix (h0 h1 x : str) (c0 c1 : N) :
  is_space c0 = false -> is_space c1 = false ->
  c0 :: h0 = h1 ++ [c1] ->
  exists rest, strip ((c0 :: h0) ++ x) = (c0 :: h0) ++ rest.
Proof.
  intros H0 H1 Hh. unfold strip.
  replace (lstrip ((c0 :: h0) ++ x)) with ((c0 :: h0) ++ x) by (simpl; now rewrite H0).
  rewrite rev_app_distr, Hh, rev_app_distr. simpl.
  destruct (lstrip_keeps_suffix (rev x) (rev h1) c1 H1) as [a' Ha].
  rewrite Ha, rev_app_distr. simpl. rewrite rev_involutive.
  exists (rev a'). now rewrite <- app_assoc.
Qed.

Lemma strip_of_strip_prefix (s : str) (c : N) (s' : str) :
  strip s = c :: s' -> is_space c = false -> strip (strip s) = strip s.
Proof.
  intros Hs Hc. unfold strip at 1. rewrite Hs. simpl. rewrite Hc.
  rewrite <- Hs. unfold strip. rewrite rev_involutive, lstrip_idempotent. reflexivity.
Qed.

(** The text [__str__] strips: the header, the detail and the part on the
    compensations, which is empty when the mapping is. *)
Lemma str_text (failure : SagaError) :
  exists compensation_error_msgs,
    fst (__str__ failure)
    = strip (join (nl ++ nl)
               [header_msg;
                lit "Transaction failed at step index "
                ++ str_of_nat (failed_step_index failure) ++ lit ": "
                ++ lit "An unexpected " ++ type_name (action_exception failure)
                ++ lit " occurred, triggering the compensation process."
                ++ nl ++ fst (format_traceback_indentation (action_traceback failure) 2 failure);
                compensation_error_msgs]) /\
    (compensation_exception_tracebacks failure = [] -> compensation_error_msgs = []).
Proof.
  unfold __str__, bind, attr.
  pose proof (format_traceback_indentation_leaves_self (action_traceback failure) 2 failure)
    as Hself.
  destruct (format_traceback_indentation (action_traceback failure) 2 failure)
    as [indented self'] eqn:Hfmt.
  simpl in Hself. subst self'. simpl fst.
  destruct (compensation_exception_tracebacks failure) as [|entry mapping] eqn:Hmap.
  - simpl. eexists. split; [reflexivity|reflexivity].
  - cbn [map existsb orb].
    match goal with
    | |- context [let (a, self') := ?c failure in _] => destruct (c failure) as [msgs self'']
    end.
    eexists. split; [reflexivity | discriminate].
Qed.

(** The summary of a failure begins with the header, whatever the failure
    holds, and has no white space left at either end. *)
Theorem rendering_begins_with_header (failure : SagaError) :
  (exists rest, fst (__str__ failure) = header_msg ++ rest) /\
  strip (fst (__str__ failure)) = fst (__str__ failure).
Proof.
  destruct (str_text failure) as (msgs & Htext & _).
  assert (Hhead : exists rest, fst (__str__ failure) = header_msg ++ rest).
  { rewrite Htext. cbn [join]. 
    assert (Hh : header_msg = 65%N :: tl header_msg) by reflexivity.
    assert (Hl : 65%N :: tl header_msg = removelast header_msg ++ [46%N]) by reflexivity.
    rewrite Hh.
    eapply strip_keeps_prefix; [| |exact Hl]; reflexivity. }
  split; [exact Hhead|].
  destruct Hhead as [rest Hrest].
  assert (Hh : header_msg = 65%N :: tl header_msg) by reflexivity.
  rewrite Hh in Hrest. simpl in Hrest.
  rewrite Htext in Hrest |- *.
  eapply strip_of_strip_prefix; [exact Hrest | reflexivity].
Qed.

(** When no compensation failed, the summary is the header, an empty line
    and the detail: the empty third part leaves no trailing lines. *)
Theorem rendering_without_compensation_errors (failure : SagaError) :
  compensation_exception_tracebacks failure = [] ->
  fst (__str__ failure)
  = strip (header_msg ++ nl ++ nl
           ++ lit "Transaction failed at step index "
           ++ str_of_nat (failed_step_index failure) ++ lit ": "
           ++ lit "An unexpected " ++ type_name (action_exception failure)
           ++ lit " occurred, triggering the compensation process."
           ++ nl ++ fst (format_traceback_indentation (action_traceback failure) 2 failure)).
Proof.
  intros Hempty. destruct (str_text failure) as (msgs & Htext & Hmsgs).
  rewrite Htext, (Hmsgs Hempty). cbn [join]. rewrite app_nil_r.
  match goal with
  | |- _ = strip ?y => rewrite <- (strip_drops_trailing_space y (nl ++ nl)) by reflexivity
  end.
  f_equal; try (now rewrite <- !app_assoc).
Qed.

(** *** Lines of an indented trace *)

Definition plain (line : str) : bool := forallb (fun c => negb (is_line_boundary c)) line.

Lemma splitlines_from_plain (line cur rest : str) :
  plain line = true ->
  splitlines_from cur (line ++ rest) = splitlines_from (rev line ++ cur) rest.
Proof.
  revert cur. induction line as [|c line IH]; intros cur H; simpl in *; [reflexivity|].
  apply andb_prop in H. destruct H as [Hc Hline].
  apply negb_true_iff in Hc. rewrite Hc, IH by exact Hline.
  now rewrite <- app_assoc.
Qed.

Lemma splitlines_join (lines : list str) :
  (forall line, In line lines -> line <> [] /\ plain line = true) ->
  splitlines (join nl lines) = lines.
Proof.
  unfold splitlines. induction lines as [|line lines IH]; intros H; [reflexivity|].
  destruct (H line (or_introl eq_refl)) as [Hne Hplain].
  destruct lines as [|line2 lines].
  - pose proof (splitlines_from_plain line [] [] Hplain) as Hline.
    rewrite !app_nil_r in Hline. simpl. rewrite Hline. simpl.
    destruct (rev line) eqn:E; [|now rewrite <- E, rev_involutive].
    apply (f_equal (@rev N)) in E. rewrite rev_involutive in E. contradiction.
  - change (join nl (line :: line2 :: lines))
      with (line ++ nl ++ join nl (line2 :: lines)).
    rewrite splitlines_from_plain by exact Hplain.
    rewrite app_nil_r. unfold nl at 1. cbn [app splitlines_from].
    change (is_line_boundary 10) with true. cbv iota.
    rewrite rev_involutive. f_equal. apply IH.
    intros l Hl. apply H. now right.
Qed.

(** What is left to split after a line boundary: a line feed that follows
    a carriage return belongs to the same boundary. *)
Definition after_boundary (c : N) (rest : str) : str :=
  match c, rest with
  | 13%N, 10%N :: rest' => rest'
  | _, _ => rest
  end.

Lemma splitlines_from_at_boundary (c : N) (rest cur : str) :
  is_line_boundary c = true ->
  splitlines_from cur (c :: rest) = rev cur :: splitlines_from [] (after_boundary c rest).
Proof.
  intros H. cbn [splitlines_from]. rewrite H. unfold after_boundary.
  destruct c as [|p]; [reflexivity|].
  do 4 (try destruct p as [p|p|]); try reflexivity.
  destruct rest as [|c2 rest']; [reflexivity|].
  destruct c2 as [|q]; [reflexivity|].
  do 4 (try destruct q as [q|q|]); reflexivity.
Qed.

Lemma after_boundary_length (c : N) (rest : str) :
  length (after_boundary c rest) <= length rest.
Proof.
  unfold after_boundary.
  destruct c as [|p]; [lia|].
  do 4 (try destruct p as [p|p|]); try lia.
  destruct rest as [|c2 rest']; [simpl; lia|].
  destruct c2 as [|q]; [lia|].
  do 4 (try destruct q as [q|q|]); simpl; lia.
Qed.

Lemma splitlines_from_lines_plain (n : nat) :
  forall s cur, length s <= n -> plain (rev cur) = true ->
  forall line, In line (splitlines_from cur s) -> plain line = true.
Proof.
  induction n as [|n IH]; intros s cur Hlen Hcur line Hin.
  - destruct s; [|simpl in Hlen; lia]. simpl in Hin.
    destruct cur; [contradiction|]. destruct Hin as [<-|[]]. exact Hcur.
  - destruct s as [|c rest].
    + simpl in Hin. destruct cur; [contradiction|]. destruct Hin as [<-|[]]. exact Hcur.
    + simpl in Hlen. destruct (is_line_boundary c) eqn:Hc.
      * rewrite (splitlines_from_at_boundary c rest cur Hc) in Hin.
        destruct Hin as [<-|Hrest]; [exact Hcur|].
        pose proof (after_boundary_length c rest).
        apply (IH (after_boundary c rest) []); [lia | reflexivity | exact Hrest].
      * cbn [splitlines_from] in Hin. rewrite Hc in Hin.
        apply (IH rest (c :: cur)); [lia | | exact Hin].
        simpl. unfold plain in *. rewrite forallb_app, Hcur. simpl. now rewrite Hc.
Qed.

(** Indenting a trace of several lines keeps its lines, in order, and puts
    the indentation and the marker before each. *)
Theorem indentation_keeps_the_lines
    (traceback_str : str) (indent : nat) (failure : SagaError) :
  contains_char 10%N traceback_str = true ->
  splitlines (fst (format_traceback_indentation traceback_str indent failure))
  = map (fun line => spaces indent ++ [9550%N] ++ line) (splitlines traceback_str).
Proof.
  intros Hnl. unfold format_traceback_indentation. rewrite Hnl. simpl fst.
  apply splitlines_join. intros line Hin.
  apply in_map_iff in Hin. destruct Hin as (l & <- & Hl).
  split.
  - intros H. apply app_eq_nil in H. destruct H as [_ H]. discriminate.
  - unfold plain. rewrite !forallb_app. simpl.
    assert (Hsp : forallb (fun c => negb (is_line_boundary c)) (spaces indent) = true).
    { unfold spaces. induction indent; simpl; auto. }
    rewrite Hsp. simpl.
    apply (splitlines_from_lines_plain (length traceback_str) traceback_str []);
      [lia | reflexivity | exact Hl].
Qed.

(** ** Further properties of the stored trace *)

(** [sep in s]. *)
Definition occurs (sep s : str) : Prop := exists a b, s = a ++ sep ++ b.

Lemma strip_prefix_Some (p s r : str) : strip_prefix p s = Some r -> s = p ++ r.
Proof.
  revert s. induction p as [|x p IH]; intros s H; simpl in H.
  - now inversion H.
  - destruct s as [|y s]; [discriminate|].
    destruct (N.eqb x y) eqn:E; [|discriminate].
    apply N.eqb_eq in E. subst y. simpl. f_equal. auto.
Qed.

Lemma strip_prefix_app (p r : str) : strip_prefix p (p ++ r) = Some r.
Proof.
  induction p as [|x p IH]; simpl; [reflexivity|]. now rewrite N.eqb_refl.
Qed.

Lemma find_first_Some (sep : str) :
  forall s acc before after,
  find_first sep acc s = Some (before, after) ->
  exists pre,
    before = rev acc ++ pre /\
    s = pre ++ sep ++ after /\
    (forall pre' after', s = pre' ++ sep ++ after' -> length pre <= length pre').
Proof.
  induction s as [|c s IH]; intros acc before after H; simpl in H.
  - destruct (strip_prefix sep []) as [r|] eqn:E; [|discriminate].
    inversion H; subst. exists []. rewrite app_nil_r.
    split; [reflexivity|]. split; [simpl; now apply strip_prefix_Some|]. intros; simpl; lia.
  - destruct (strip_prefix sep (c :: s)) as [r|] eqn:E.
    + inversion H; subst. exists []. rewrite app_nil_r.
      split; [reflexivity|]. split; [simpl; now apply strip_prefix_Some|]. intros; simpl; lia.
    + destruct (IH _ _ _ H) as (pre & Hb & Hs & Hmin).
      exists (c :: pre). split; [rewrite Hb; simpl; now rewrite <- app_assoc|].
      split; [simpl; now rewrite Hs|].
      intros pre' after' Heq. destruct pre' as [|c' pre'].
      * simpl in Heq. rewrite Heq, strip_prefix_app in E. discriminate.
      * simpl in Heq. inversion Heq; subst. simpl. apply le_n_S. eapply Hmin. eauto.
Qed.

Lemma find_first_None (sep : str) :
  forall s acc, find_first sep acc s = None -> ~ occurs sep s.
Proof.
  induction s as [|c s IH]; intros acc H (a & b & Heq); simpl in H.
  - destruct (strip_prefix sep []) eqn:E; [discriminate|].
    symmetry in Heq. apply app_eq_nil in Heq. destruct Heq as [-> Heq].
    apply app_eq_nil in Heq. destruct Heq as [-> ->]. discriminate.
  - destruct (strip_prefix sep (c :: s)) eqn:E; [discriminate|].
    destruct a as [|c' a].
    + simpl in Heq. rewrite Heq, strip_prefix_app in E. discriminate.
    + simpl in Heq. inversion Heq; subst. apply (IH _ H). now exists a, b.
Qed.

Lemma occurrence_before (sep pre post pre0 after0 : str) :
  sep <> [] ->
  pre ++ sep ++ post = pre0 ++ sep ++ after0 ->
  length pre0 < length pre ->
  occurs sep (pre ++ removelast sep).
Proof.
  intros Hne Heq Hlt.
  set (n := length pre0 + length sep).
  assert (Hsep : sep = removelast sep ++ [last sep 0%N]) by now apply app_removelast_last.
  assert (Hlen : length sep = S (length (removelast sep))).
  { rewrite Hsep at 1. rewrite length_app. simpl. lia. }
  assert (Hfit : n <= length (pre ++ removelast sep)) by (rewrite length_app; lia).
  assert (H1 : firstn n (pre ++ sep ++ post) = firstn n (pre ++ removelast sep)).
  { rewrite Hsep at 1. rewrite <- app_assoc, app_assoc.
    rewrite firstn_app. replace (n - length (pre ++ removelast sep)) with 0 by lia.
    simpl. apply app_nil_r. }
  assert (H2 : firstn n (pre0 ++ sep ++ after0) = pre0 ++ sep).
  { rewrite app_assoc, firstn_app.
    replace (n - length (pre0 ++ sep)) with 0 by (rewrite length_app; lia).
    simpl. rewrite app_nil_r. apply firstn_all2. rewrite length_app. lia. }
  rewrite Heq, H2 in H1.
  exists pre0, (skipn n (pre ++ removelast sep)).
  rewrite app_assoc, H1. symmetry. apply firstn_skipn.
Qed.

Lemma app_same_length {A : Type} (a b c d : list A) :
  length a = length c -> a ++ b = c ++ d -> a = c /\ b = d.
Proof.
  revert c. induction a as [|x a IH]; intros [|y c] Hlen Heq; simpl in *; try discriminate.
  - auto.
  - inversion Heq; subst. destruct (IH c) as [-> ->]; auto.
Qed.

(** [partition] at the first occurrence. *)
Lemma partition_at_first (s sep pre post : str) :
  sep <> [] ->
  s = pre ++ sep ++ post ->
  ~ occurs sep (pre ++ removelast sep) ->
  partition s sep = (pre, sep, post).
Proof.
  intros Hne Hs Hfirst. unfold partition.
  destruct (find_first sep [] s) as [[before after]|] eqn:E.
  - destruct (find_first_Some _ _ _ _ _ E) as (pre0 & Hb & Hs0 & Hmin). simpl in Hb. subst before.
    assert (Hlen : length pre0 = length pre).
    { specialize (Hmin pre post Hs).
      destruct (Nat.eq_dec (length pre0) (length pre)) as [|Hneq]; [assumption|].
      exfalso. apply Hfirst.
      apply (occurrence_before sep pre post pre0 after Hne); [congruence | lia]. }
    rewrite Hs in Hs0. destruct (app_same_length _ _ _ _ Hlen (eq_sym Hs0)) as [-> Hrest].
    apply app_inv_head in Hrest. now subst.
  - exfalso. apply (find_first_None _ _ _ E). now exists pre, post.
Qed.

(** When the formatted text of a compensation failure has no framing
    sentence, which is so when the compensation raised [from None], the
    trace stored for it is empty. *)
Theorem stored_trace_empty_without_marker (e : exn) :
  ~ occurs handling_marker (format_exception e) -> stored_trace e = [].
Proof.
  intros Hnone. unfold stored_trace, partition. simpl format_exc.
  destruct (find_first handling_marker [] (format_exception e)) as [[before after]|] eqn:E.
  - exfalso. apply Hnone.
    destruct (find_first_Some _ _ _ _ _ E) as (pre & _ & Hs & _). now exists pre, after.
  - reflexivity.
Qed.

(** The trace stored for a compensation failure is what follows the first
    framing sentence of its formatted text. *)
Lemma stored_trace_follows_first_marker (e : exn) (pre post : str) :
  format_exception e = pre ++ handling_marker ++ post ->
  ~ occurs handling_marker (pre ++ removelast handling_marker) ->
  stored_trace e = post.
Proof.
  intros Htext Hfirst. unfold stored_trace. simpl format_exc.
  assert (Hne : handling_marker <> []) by (intros H; vm_compute in H; discriminate).
  rewrite (partition_at_first _ _ pre post Hne Htext Hfirst). reflexivity.
Qed.

(** For a compensation that raises plainly while the exception of the
    action is being handled, when the formatted text of that exception has
    no framing sentence of its own, the stored trace is the text of the
    compensation failure alone. *)
Theorem stored_trace_of_plain_raise (e handled : exn) :
  cause e = None ->
  context e = Some handled ->
  suppress_context e = false ->
  ~ occurs handling_marker (format_exception handled ++ nl ++ removelast handling_marker) ->
  stored_trace e = trace_block e.
Proof.
  intros Hcause Hcontext Hsuppress Hfirst.
  apply (stored_trace_follows_first_marker e (format_exception handled ++ nl)).
  - destruct e as [name msg block c ctx sup]. simpl in *. subst c ctx sup.
    rewrite <- app_assoc. reflexivity.
  - now rewrite <- app_assoc.
Qed.

(** ** The mapping of a failure raised by [execute] *)

Section Failures.

Variable World : Type.
Variable stack_text : nat -> str.

Definition only_steps (self : Saga World) : Prop :=
  forall el, In el (steps self) -> exists l, el = Step l.

Lemma dict_get_none_everywhere (d : errors) : (forall j, dict_get d j = None) -> d = [].
Proof.
  destruct d as [|[k v] d]; [reflexivity|]. intros H. specialize (H k).
  simpl in H. rewrite Nat.eqb_refl in H. discriminate.
Qed.

Lemma failure_entries
    (self : Saga World) (handling : option exn) (m : machine World)
    (failure : SagaError) (j : nat) (e : exn) (t : str) :
  let run := execute stack_text self handling m in
  let evs := events_since (log m) (log (snd run)) in
  only_steps self ->
  fst run = Raised (Saga_error failure) ->
  (dict_get (compensation_exception_tracebacks failure) j = Some (e, t) <->
   In (ECompensate j (Raised e)) evs /\ t = stored_trace e).
Proof.
  cbv zeta. intros Hsteps Hraised.
  destruct (execute_failure_shape World stack_text self handling m failure Hraised)
    as (pre & l0 & post & evs0 & args_k & m_k & exc & w0 & added & d &
        Hpre & Hs & _ & Hevs & Hact & _ & _ & _ & _ & Hfailure & _ & Hrec & _ & Hent & Habove & _).
  subst failure. simpl.
  destruct (failed_run_events World stack_text _ _ _ _ _ _ _ _ added (length pre)
              (elements args_k) exc Hs Hact) as (_ & _ & Hin_comp & _).
  rewrite <- Hevs in Hin_comp.
  split.
  - intros Hget.
    destruct (Nat.lt_ge_cases j (length pre)) as [Hj|Hj];
      [|rewrite (Habove j Hj) in Hget; discriminate].
    destruct (Hent j Hj) as (o & Horigin & Hd). unfold origin in Horigin.
    assert (Hnth : exists l, nth_error (steps self) j = Some (Step l)).
    { destruct (nth_error (steps self) j) as [el|] eqn:Hnth.
      - destruct (Hsteps el (nth_error_In _ _ Hnth)) as [l ->]. eauto.
      - apply nth_error_None in Hnth. rewrite Hpre, length_app in Hnth. simpl in Hnth. lia. }
    destruct Hnth as [l Hnth]. rewrite Hnth in Horigin.
    rewrite Hd in Hget.
    destruct o as [r|e']; [discriminate|]. inversion Hget; subst.
    split; [|reflexivity]. now apply Hin_comp.
  - intros [Hin ->]. apply Hrec. now apply Hin_comp.
Qed.

(** For a saga that holds [Action]s only, the mapping of the failure that
    [execute] raises has an entry exactly for each compensation that
    raised: its exception, with the trace stored for it. *)
Theorem failure_mapping_is_exact
    (self : Saga World) (handling : option exn) (m : machine World)
    (failure : SagaError) (j : nat) (e : exn) (t : str) :
  let run := execute stack_text self handling m in
  let evs := events_since (log m) (log (snd run)) in
  only_steps self ->
  fst run = Raised (Saga_error failure) ->
  (dict_get (compensation_exception_tracebacks failure) j = Some (e, t) <->
   In (ECompensate j (Raised e)) evs /\ t = stored_trace e).
Proof.
  exact (failure_entries self handling m failure j e t).
Qed.

(** When no compensation raises, the failure still is raised, with the
    exception of the action and an empty mapping. *)
Theorem no_compensation_failure_gives_empty_mapping
    (self : Saga World) (handling : option exn) (m : machine World) (failure : SagaError) :
  let run := execute stack_text self handling m in
  let evs := events_since (log m) (log (snd run)) in
  only_steps self ->
  fst run = Raised (Saga_error failure) ->
  (forall j e, ~ In (ECompensate j (Raised e)) evs) ->
  compensation_exception_tracebacks failure = [].
Proof.
  cbv zeta. intros Hsteps Hraised Hnone.
  apply dict_get_none_everywhere. intros j.
  destruct (dict_get (compensation_exception_tracebacks failure) j) as [[e t]|] eqn:Hget;
    [|reflexivity].
  apply (failure_entries self handling m failure j e t Hsteps Hraised) in Hget.
  destruct Hget as [Hin _]. exfalso. exact (Hnone j e Hin).
Qed.

End Failures.

(** ** The further properties on the order saga *)

Arguments add_steps {World} pairs self s.
Arguments new_orchestrator {World} next.
Arguments only_steps {World} self.

(** The failure a run raised. *)
Definition failure_of (sm : Saga World * machine World) : SagaError :=
  match fst (run sm) with
  | Raised (Saga_error failure) => failure
  | _ =>
      {| failed_step_index := 0;
         action_exception := raise_ "Exception" "" None;
         action_traceback := [];
         compensation_exception_tracebacks := [] |}
  end.

Lemma completed_run_acts_once_in_order_witness :
  acted (events two_steps) = [(0, true); (1, true)] /\
  compensated (events two_steps) = [].
Proof.
  destruct (completed_run_acts_once_in_order World saga_frames
              (fst two_steps) (fst two_steps) None (snd two_steps))
    as (_ & Hacted & Hcomp).
  - vm_compute. reflexivity.
  - split; [exact Hacted | exact Hcomp].
Defined.

Lemma failed_run_stops_at_failed_step_witness :
  (exists l, nth_error (steps (fst failing_third)) 2 = Some (Step l)) /\
  (forall i inputs o, In (EAct i inputs o) (events failing_third) -> i <= 2).
Proof.
  destruct (failed_run_stops_at_failed_step World saga_frames
              (fst failing_third) None (snd failing_third) (failure_of failing_third))
    as (Hstep & _ & Hlast).
  - vm_compute. reflexivity.
  - split; [exact Hstep | exact Hlast].
Defined.

(** [Saga([None, Action(create_order, cancel_order_fails)])], after its
    step ran. *)
Definition None_then_step : Saga World * machine World :=
  ({| steps := [NotStep VNone; Step 0] |},
   {| world := []; store := fun _ => new_Action create_order cancel_order_fails; log := [] |}).

(** The keys of the mapping when positions 2 and 3 are past the end, the
    compensation of position 1 raises and position 0 holds [None]. *)
Definition mapping_of_None_then_step : errors :=
  [(3, (out_of_range_error saga_frames (Some out_of_stock),
        stored_trace (out_of_range_error saga_frames (Some out_of_stock))));
   (2, (out_of_range_error saga_frames (Some out_of_stock),
        stored_trace (out_of_range_error saga_frames (Some out_of_stock))));
   (1, (refund_refused, service_block "RuntimeError" "refund refused"));
   (0, (not_a_step_error saga_frames (Some out_of_stock) VNone,
        stored_trace (not_a_step_error saga_frames (Some out_of_stock) VNone)))].

Lemma error_keys_descend_witness :
  fst (_run_compensations saga_frames (fst None_then_step) (Some out_of_stock) 4
         (snd (run None_then_step)))
  = Returned mapping_of_None_then_step /\
  keys mapping_of_None_then_step = [3; 2; 1; 0] /\
  keys mapping_of_None_then_step
  = filter (has_entry mapping_of_None_then_step) (rev (seq 0 4)) /\
  (forall j, In j (keys mapping_of_None_then_step) -> j < 4).
Proof.
  assert (Hfst : fst (_run_compensations saga_frames (fst None_then_step) (Some out_of_stock) 4
                        (snd (run None_then_step)))
                 = Returned mapping_of_None_then_step) by (vm_compute; reflexivity).
  split; [exact Hfst|]. split; [reflexivity|].
  exact (error_keys_descend World saga_frames (fst None_then_step) (Some out_of_stock) 4
           (snd (run None_then_step)) mapping_of_None_then_step Hfst).
Defined.

(** [None], a [Refund] object and a bare [object()] below a step that
    fails: [None] and the bare object get an [AttributeError], and the
    [compensate] of the [Refund] object is called. *)
Definition with_all_kinds : Saga World * machine World :=
  ({| steps := [NotStep VNone; Foreign refund; Foreign bare_object; Step 0] |},
   {| world := []; store := fun _ => new_Action refuse release_all; log := [] |}).

Definition mapping_of_all_kinds : errors :=
  [(2, (no_compensate_error saga_frames (Some out_of_stock) bare_object,
        stored_trace (no_compensate_error saga_frames (Some out_of_stock) bare_object)));
   (0, (not_a_step_error saga_frames (Some out_of_stock) VNone,
        stored_trace (not_a_step_error saga_frames (Some out_of_stock) VNone)))].

Lemma non_step_position_is_recorded_witness :
  let done := _run_compensations saga_frames (fst with_all_kinds) (Some out_of_stock) 3
                (snd with_all_kinds) in
  fst done = Returned mapping_of_all_kinds /\
  message (not_a_step_error saga_frames (Some out_of_stock) VNone)
  = lit "'NoneType' object has no attribute 'compensate'" /\
  message (no_compensate_error saga_frames (Some out_of_stock) bare_object)
  = lit "'object' object has no attribute 'compensate'" /\
  (exists w w',
     In (EForeign 1 (Returned VNone))
        (events_since (log (snd with_all_kinds)) (log (snd done))) /\
     await_ saga_frames 101 (Some out_of_stock) (refund_compensate (Some out_of_stock) w)
     = (Returned VNone, w') /\
     dict_get mapping_of_all_kinds 1 = None) /\
  world (snd done) = ["refund"%string].
Proof.
  cbv zeta.
  assert (Hfst : fst (_run_compensations saga_frames (fst with_all_kinds) (Some out_of_stock) 3
                        (snd with_all_kinds))
                 = Returned mapping_of_all_kinds) by (vm_compute; reflexivity).
  pose proof (non_step_position_is_recorded World saga_frames (fst with_all_kinds)
                (Some out_of_stock) 3 (snd with_all_kinds) 1 mapping_of_all_kinds) as Hrec.
  cbv zeta in Hrec. specialize (Hrec Hfst ltac:(lia)).
  split; [exact Hfst|].
  split; [vm_compute; reflexivity|].
  split; [vm_compute; reflexivity|].
  split; [|vm_compute; reflexivity].
  simpl in Hrec. destruct Hrec as (r & w & w' & Hin & Hawait & Hget).
  assert (Hr : r = Returned VNone).
  { vm_compute in Hin. destruct Hin as [H|[]]. now inversion H. }
  subst r. exists w, w'. auto.
Defined.

Definition mapping_past_the_end : errors :=
  [(2, (out_of_range_error saga_frames (Some out_of_stock),
        stored_trace (out_of_range_error saga_frames (Some out_of_stock))))].

Lemma position_past_end_is_recorded_witness :
  fst (_run_compensations saga_frames (fst two_steps) (Some out_of_stock) 3
         (snd (run two_steps)))
  = Returned mapping_past_the_end /\
  dict_get mapping_past_the_end 2
  = Some (out_of_range_error saga_frames (Some out_of_stock),
          stored_trace (out_of_range_error saga_frames (Some out_of_stock))) /\
  message (out_of_range_error saga_frames (Some out_of_stock)) = lit "list index out of range".
Proof.
  assert (Hfst : fst (_run_compensations saga_frames (fst two_steps) (Some out_of_stock) 3
                        (snd (run two_steps)))
                 = Returned mapping_past_the_end) by (vm_compute; reflexivity).
  split; [exact Hfst|]. split; [|reflexivity].
  destruct (position_past_end_is_recorded World saga_frames
              (fst two_steps) (Some out_of_stock) 3 (snd (run two_steps)) 2
              mapping_past_the_end) as (_ & Hrec).
  - vm_compute. lia.
  - apply Hrec; [exact Hfst | lia].
Defined.

Lemma every_entry_comes_from_a_failure_witness :
  let self := fst two_steps_first_undo_fails in
  let m := snd (run two_steps_first_undo_fails) in
  let done := _run_compensations saga_frames self (Some out_of_stock) 2 m in
  In (ECompensate 0 (Raised refund_refused)) (events_since (log m) (log (snd done))).
Proof.
  intros self m done.
  destruct (every_entry_comes_from_a_failure World saga_frames self (Some out_of_stock) 2 m
              [(0, (refund_refused, service_block "RuntimeError" "refund refused"))]
              0 refund_refused (service_block "RuntimeError" "refund refused"))
    as (_ & _ & [Hin|[(v & Hnth & _)|[(o & Hnth & _)|(Hnth & _)]]]).
  - vm_compute. reflexivity.
  - vm_compute. reflexivity.
  - exact Hin.
  - discriminate.
  - discriminate.
  - discriminate.
Defined.

Lemma compensation_gets_result_of_its_step_witness :
  exists l inputs r w w',
    nth_error (steps (fst failing_third)) 1 = Some (Step l) /\
    In (EAct 1 inputs (Returned r)) (events failing_third) /\
    compensation_args (store (snd (run failing_third)) l) = Some (normalize r) /\
    compensate saga_frames (store (snd (run failing_third)) l)
      (Some (action_exception (failure_of failing_third))) w
    = (Returned VNone, w').
Proof.
  apply (compensation_gets_result_of_its_step World saga_frames
           (fst failing_third) None (snd failing_third) (failure_of failing_third)
           1 (Returned VNone)).
  - vm_compute. repeat constructor; simpl; lia.
  - vm_compute. reflexivity.
  - vm_compute. do 3 right. now left.
Defined.

Lemma saga_without_steps_completes_witness :
  run no_step_at_all = (Returned (fst no_step_at_all), snd no_step_at_all).
Proof.
  apply (saga_without_steps_completes World saga_frames (fst no_step_at_all) None
           (snd no_step_at_all)).
  reflexivity.
Defined.


Definition four_pairs : list (callable World * callable World) :=
  [(create_order, cancel_order); (pay_for, cancel_payment);
   (reserve_for, rollback_inventory); (ship_for, rollback_shipping)].


Lemma orchestrated_failure_leaves_later_steps_unset_witness :
  let built := add_steps four_pairs (new_orchestrator 0) empty_store in
  let done := orchestrator_execute saga_frames (fst built) None
                {| world := []; store := snd built; log := [] |} in
  compensation_args (store (snd done) (0 + 3)) = None /\
  result (store (snd done) (0 + 3)) = VNone.
Proof.
  apply (orchestrated_failure_leaves_later_steps_unset World saga_frames four_pairs 0
           empty_store [] None (failure_of failing_third) 3).
  - vm_compute. reflexivity.
  - vm_compute. lia.
Defined.

Lemma rendering_without_compensation_errors_witness :
  fst (__str__ (failure_of failing_third))
  = strip (header_msg ++ nl ++ nl
           ++ lit "Transaction failed at step index "
           ++ str_of_nat (failed_step_index (failure_of failing_third)) ++ lit ": "
           ++ lit "An unexpected " ++ type_name (action_exception (failure_of failing_third))
           ++ lit " occurred, triggering the compensation process."
           ++ nl ++ fst (format_traceback_indentation
                           (action_traceback (failure_of failing_third)) 2
                           (failure_of failing_third))).
Proof.
  apply (rendering_without_compensation_errors (failure_of failing_third)).
  vm_compute. reflexivity.
Defined.

Lemma indentation_keeps_the_lines_witness :
  splitlines (fst (format_traceback_indentation
                     (service_block "ValueError" "out of stock") 2
                     (failure_of failing_third)))
  = map (fun line => spaces 2 ++ [9550%N] ++ line)
        (splitlines (service_block "ValueError" "out of stock")).
Proof.
  apply (indentation_keeps_the_lines (service_block "ValueError" "out of stock") 2
           (failure_of failing_third)).
  reflexivity.
Defined.

Lemma stored_trace_empty_without_marker_witness :
  stored_trace (raise_from_None "RuntimeError" "refund refused" (Some out_of_stock)) = [].
Proof.
  apply (stored_trace_empty_without_marker
           (raise_from_None "RuntimeError" "refund refused" (Some out_of_stock))).
  apply (find_first_None handling_marker _ []). vm_compute. reflexivity.
Defined.

Lemma stored_trace_of_plain_raise_witness :
  stored_trace (raise_ "RuntimeError" "refund refused" (Some out_of_stock))
  = service_block "RuntimeError" "refund refused".
Proof.
  apply (stored_trace_of_plain_raise
           (raise_ "RuntimeError" "refund refused" (Some out_of_stock)) out_of_stock).
  - reflexivity.
  - reflexivity.
  - reflexivity.
  - apply (find_first_None handling_marker _ []). vm_compute. reflexivity.
Defined.

Lemma failure_mapping_is_exact_witness :
  dict_get (compensation_exception_tracebacks (failure_of failing_third_and_first_undo)) 0
  = Some (raise_ "RuntimeError" "refund refused" (Some out_of_stock),
          service_block "RuntimeError" "refund refused")
  <->
  In (ECompensate 0 (Raised (raise_ "RuntimeError" "refund refused" (Some out_of_stock))))
     (events failing_third_and_first_undo) /\
  service_block "RuntimeError" "refund refused"
  = stored_trace (raise_ "RuntimeError" "refund refused" (Some out_of_stock)).
Proof.
  apply (failure_mapping_is_exact World saga_frames
           (fst failing_third_and_first_undo) None (snd failing_third_and_first_undo)
           (failure_of failing_third_and_first_undo) 0
           (raise_ "RuntimeError" "refund refused" (Some out_of_stock))
           (service_block "RuntimeError" "refund refused")).
  - intros el Hel. vm_compute in Hel.
    destruct Hel as [<-|[<-|[<-|[<-|[]]]]]; eauto.
  - vm_compute. reflexivity.
Defined.

Lemma no_compensation_failure_gives_empty_mapping_witness :
  compensation_exception_tracebacks (failure_of failing_third) = [].
Proof.
  apply (no_compensation_failure_gives_empty_mapping World saga_frames
           (fst failing_third) None (snd failing_third) (failure_of failing_third)).
  - intros el Hel. vm_compute in Hel.
    destruct Hel as [<-|[<-|[<-|[<-|[]]]]]; eauto.
  - vm_compute. reflexivity.
  - intros j e Hin. vm_compute in Hin.
    destruct Hin as [H|[H|[H|[H|[H|[]]]]]]; discriminate.
Defined.

(** The third of four steps is interrupted: the run raises the
    [KeyboardInterrupt], and the services receive no undo request. *)
Lemma base_exception_of_action_leaves_execute_witness :
  fst (run interrupted_third) = Raised (Base_exception (interrupt "stopped" None)) /\
  compensated (events interrupted_third) = [] /\
  world (snd (run interrupted_third)) = ["create_order"; "pay_for"; "reserve_for"]%string.
Proof.
  destruct (base_exception_of_action_leaves_execute World saga_frames
              (fst interrupted_third) None (snd interrupted_third)
              2 [payment] (interrupt "stopped" None))
    as (Hfst & Hnone & _).
  - vm_compute. right. right. now left.
  - reflexivity.
  - split; [exact Hfst|]. split; [exact Hnone|]. vm_compute. reflexivity.
Defined.

(** The compensation of the second of two steps is interrupted: the phase
    raises the [KeyboardInterrupt] after that one call. *)
Lemma base_exception_of_compensation_ends_the_phase_witness :
  is_exception (interrupt "stopped" (Some out_of_stock)) = false /\
  exists j before,
    j < 2 /\
    (events_since (log (snd (run two_steps_second_undo_interrupted)))
       (log (snd interrupted_phase))
     = before ++ [ECompensate j (Raised (interrupt "stopped" (Some out_of_stock)))] \/
     events_since (log (snd (run two_steps_second_undo_interrupted)))
       (log (snd interrupted_phase))
     = before ++ [EForeign j (Raised (interrupt "stopped" (Some out_of_stock)))]) /\
    (forall i o, In (ECompensate i o) before \/ In (EForeign i o) before -> j < i < 2).
Proof.
  apply (base_exception_of_compensation_ends_the_phase World saga_frames
           (fst two_steps_second_undo_interrupted) (Some out_of_stock) 2
           (snd (run two_steps_second_undo_interrupted))
           (interrupt "stopped" (Some out_of_stock))).
  vm_compute. reflexivity.
Defined.

(** The run whose second compensation is interrupted raises the
    [KeyboardInterrupt] of that compensation. *)
Lemma execute_raises_SagaError_or_base_exception_witness :
  is_exception (interrupt "stopped" (Some out_of_stock)) = false /\
  ((exists k inputs,
      In (EAct k inputs (Raised (interrupt "stopped" (Some out_of_stock))))
         (events interrupted_undo) /\
      compensated (events interrupted_undo) = []) \/
   (exists j,
      In (ECompensate j (Raised (interrupt "stopped" (Some out_of_stock))))
         (events interrupted_undo) \/
      In (EForeign j (Raised (interrupt "stopped" (Some out_of_stock))))
         (events interrupted_undo))).
Proof.
  apply (execute_raises_SagaError_or_base_exception World saga_frames
           (fst interrupted_undo) None (snd interrupted_undo)
           (interrupt "stopped" (Some out_of_stock))).
  vm_compute. reflexivity.
Defined.
